(** * ags: the application object of [src/app.ts]

    A shallow embedding of the [App] class: the window registry
    ([addWindow], [getWindow], [openWindow], [closeWindow], [toggleWindow]),
    the configuration loader ([deprecated], [_load]) and the remote
    execution bridge ([RunJs], [ToggleWindow]).

    The class mutates one application object and talks to Gtk, GLib and
    D-Bus.  The embedding threads the application object through a small
    state-and-exception monad and records every call that leaves the class
    (signals, console output, bus calls, backend calls) in a chronological
    trace. *)

From Stdlib Require Import ZArith String List Bool Lia.
From stdpp Require Import base option list gmap strings pretty.

Local Open Scope Z_scope.

(** ** JavaScript values *)

Module Js.

(** An [Error] object: its [name] and [message] properties. *)
Record Error := mkError { name : string; message : string }.

(** [Error(msg)]: the plain constructor. *)
Definition Error_ (msg : string) : Error := mkError "Error" msg.

(** The values that reach a template literal or [console.error] here.  A
    number is given by its rendering, the string [`${n}`] produces for it
    ([2], [0.5], [1e+21], [NaN]), and an object other than an [Error] by
    what its [toString] returns. *)
Inductive value :=
| VUndefined
| VBool (b : bool)
| VNum (shown : string)
| VStr (s : string)
| VErr (e : Error)
| VObject (shown : string).

(** The line feed inside a multi-line template literal, and the double
    quote. *)
Definition nl : string := String (Ascii.ascii_of_nat 10) EmptyString.
Definition dquote : string := String (Ascii.ascii_of_nat 34) EmptyString.

(** [Error.prototype.toString]. *)
Definition error_to_string (e : Error) : string :=
  if String.eqb (name e) EmptyString then message e
  else if String.eqb (message e) EmptyString then name e
  else name e +:+ ": " +:+ message e.

(** A template literal with one hole: [`${v}`]. *)
Definition to_string (v : value) : string :=
  match v with
  | VUndefined => "undefined"
  | VBool true => "true"
  | VBool false => "false"
  | VNum shown => shown
  | VStr s => s
  | VErr e => error_to_string e
  | VObject shown => shown
  end.

(** [s.includes(sub)]. *)
Fixpoint includes (sub s : string) : bool :=
  String.prefix sub s ||
  match s with
  | EmptyString => false
  | String _ s' => includes sub s'
  end.

(** [s.startsWith(p)] and [s.slice(1)]. *)
Definition startsWith (p s : string) : bool := String.prefix p s.

Definition slice1 (s : string) : string :=
  match s with
  | EmptyString => EmptyString
  | String _ s' => s'
  end.

(** Truthiness of an optional string ([undefined] and the empty string
    are falsy). *)
Definition truthy_str (s : option string) : bool :=
  match s with
  | Some s => negb (String.eqb s EmptyString)
  | None => false
  end.

(** The names every plain object answers to without having them: the
    members ECMAScript gives [Object.prototype]. *)
Definition Object_prototype : list string :=
  ["constructor"; "__defineGetter__"; "__defineSetter__"; "hasOwnProperty";
   "__lookupGetter__"; "__lookupSetter__"; "isPrototypeOf";
   "propertyIsEnumerable"; "toString"; "valueOf"; "__proto__"; "toLocaleString"].

Definition inherited (name : string) : bool :=
  existsb (String.eqb name) Object_prototype.

End Js.

(** ** The application object and what it reaches *)

(** Gtk windows are objects: the registry, the timer closures and the
    callers all hold references to the same window. *)
Definition ref := nat.
Bind Scope nat_scope with ref.

(** The part of a [Gtk.Window] the class reads and writes: its [name], its
    [visible] property, and how many [notify::visible] handlers [addWindow]
    has connected to it (each one re-emits [window-toggled]). *)
Record Window := mkWindow {
  w_name : string;
  w_visible : bool;
  w_notify : nat
}.

(** What a caller can pass where the class expects a [Gtk.Window]: a
    reference to an object, or some other value, given by what [`${w}`] and
    [typeof w] produce for it. *)
Inductive arg :=
| Obj (w : ref)
| NotObj (shown type_of : string).

(** The two signals registered by the class. *)
Inductive signal :=
| WindowToggled (name : string) (visible : bool)
| ConfigParsed.

(** Everything that leaves the class, in the order it happens.  A
    [BusCall] records that the call was made, with the arguments it was
    given, not that a peer received it. *)
Inductive effect :=
| Emit (s : signal)                      (* this.emit(...) *)
| ConsoleError (v : Js.value)            (* console.error(...) *)
| ConsoleWarn (msg : string)             (* console.warn(...) *)
| LogError (v : Js.value)                (* logError(...) *)
| Print (msg : string)                   (* the global print(...) *)
| Quit                                   (* this.quit() *)
| BusCall (bus_name object_path interface_name : option string)
          (method : string) (arg : string) (* Gio.DBus.session.call(...) *)
| WidgetShow (w : ref)                   (* w.show() *)
| WidgetHide (w : ref)                   (* w.hide() *)
| CssProvider (path : string)            (* add_provider_for_screen *)
| IconSearchPath (path : string)         (* append_search_path *)
| Connect (sig : string).                (* this.connect(sig, handler) *)

(** The only closure the class hands to [timeout]: [() => w.hide()]. *)
Inductive callback :=
| HideWindow (w : ref).

(** A pending GLib timeout source. *)
Record source := mkSource {
  source_id : nat;
  due : Z;
  action : callback
}.

(** The application object, with the part of the world it acts on: the
    Gtk objects, the pending timeouts and the clock.  Delays and times are
    whole milliseconds. *)
Record App := mkApp {
  _windows : gmap string ref;            (* Map<string, Gtk.Window> *)
  _closeDelay : option (gmap string Z);  (* undefined until _load sets it *)
  _cssProviders : list string;
  _configPath : string;
  _configDir : string;
  heap : list Window;                    (* the Gtk objects, by reference *)
  timers : list source;                  (* pending timeouts, by due time *)
  next_source : nat;
  now : Z;                               (* milliseconds *)
  trace : list effect
}.

Definition set_windows (m : gmap string ref) (a : App) : App :=
  mkApp m (_closeDelay a) (_cssProviders a) (_configPath a) (_configDir a)
        (heap a) (timers a) (next_source a) (now a) (trace a).

Definition set_closeDelay (d : option (gmap string Z)) (a : App) : App :=
  mkApp (_windows a) d (_cssProviders a) (_configPath a) (_configDir a)
        (heap a) (timers a) (next_source a) (now a) (trace a).

Definition set_cssProviders (l : list string) (a : App) : App :=
  mkApp (_windows a) (_closeDelay a) l (_configPath a) (_configDir a)
        (heap a) (timers a) (next_source a) (now a) (trace a).

Definition set_heap (h : list Window) (a : App) : App :=
  mkApp (_windows a) (_closeDelay a) (_cssProviders a) (_configPath a)
        (_configDir a) h (timers a) (next_source a) (now a) (trace a).

Definition set_timers (q : list source) (n : nat) (a : App) : App :=
  mkApp (_windows a) (_closeDelay a) (_cssProviders a) (_configPath a)
        (_configDir a) (heap a) q n (now a) (trace a).

Definition set_now (t : Z) (a : App) : App :=
  mkApp (_windows a) (_closeDelay a) (_cssProviders a) (_configPath a)
        (_configDir a) (heap a) (timers a) (next_source a) t (trace a).

Definition set_trace (tr : list effect) (a : App) : App :=
  mkApp (_windows a) (_closeDelay a) (_cssProviders a) (_configPath a)
        (_configDir a) (heap a) (timers a) (next_source a) (now a) tr.

(** Append to the trace. *)
Definition log (es : list effect) (a : App) : App :=
  set_trace (trace a ++ es) a.

(** ** State and exceptions *)

(** A method either returns or throws; the application object keeps the
    changes made before a throw.  What is thrown is taken to be an [Error]
    object, with a name and a message that is a string. *)
Inductive outcome (A : Type) :=
| Ret (a : A)
| Throw (e : Js.Error).
Arguments Ret {A} a.
Arguments Throw {A} e.

Definition M (A : Type) : Type := App -> outcome A * App.

Definition ret {A} (a : A) : M A := fun st => (Ret a, st).

Definition throw {A} (e : Js.Error) : M A := fun st => (Throw e, st).

Definition bind {A B} (m : M A) (k : A -> M B) : M B := fun st =>
  match m st with
  | (Ret a, st') => k a st'
  | (Throw e, st') => (Throw e, st')
  end.

(** [try { m } catch (err) { h err }]. *)
Definition try_catch {A} (m : M A) (h : Js.Error -> M A) : M A := fun st =>
  match m st with
  | (Ret a, st') => (Ret a, st')
  | (Throw e, st') => h e st'
  end.

(** A statement that cannot throw, and a read of the application object. *)
Definition act (f : App -> App) : M unit := fun st => (Ret tt, f st).

Definition gets {A} (f : App -> A) : M A := fun st => (Ret (f st), st).

Declare Scope app_scope.
Delimit Scope app_scope with app.
Notation "x <- m ;; k" := (bind m (fun x => k))
  (at level 100, m at next level, right associativity) : app_scope.
Notation "m ;; k" := (bind m (fun _ => k))
  (at level 100, right associativity) : app_scope.
Local Open Scope app_scope.

(** The state a method leaves behind, and what it returned. *)
Definition exec {A} (m : M A) (st : App) : App := snd (m st).
Definition result {A} (m : M A) (st : App) : outcome A := fst (m st).

(** ** The Gtk backend *)

(** [this.emit(signal, ...)] and [this.quit()]. *)
Definition emit (s : signal) : M unit := act (log [Emit s]).
Definition quit : M unit := act (log [Quit]).

(** Setting [visible] on window [w] to [b].  Gtk changes the property and
    notifies only when the value changes; every handler connected by
    [addWindow] then emits [window-toggled] with the window's name and its
    new visibility. *)
Definition set_visible (w : ref) (b : bool) (st : App) : App :=
  match heap st !! w with
  | Some win =>
      if Bool.eqb (w_visible win) b then st
      else
        log (repeat (Emit (WindowToggled (w_name win) b)) (w_notify win))
            (set_heap (<[w := mkWindow (w_name win) b (w_notify win)]> (heap st)) st)
  | None => st
  end.

(** [w.show()] and [w.hide()]. *)
Definition show (w : ref) (st : App) : App :=
  set_visible w true (log [WidgetShow w] st).

Definition hide (w : ref) (st : App) : App :=
  set_visible w false (log [WidgetHide w] st).

(** [w.visible]; a reference outside the heap reads as not visible. *)
Definition visible (st : App) (w : ref) : bool :=
  match heap st !! w with
  | Some win => w_visible win
  | None => false
  end.

(** ** Timers and the main loop *)

(** The queue of pending sources is kept by due time, first scheduled
    first among equal due times. *)
Fixpoint enqueue (s : source) (q : list source) : list source :=
  match q with
  | [] => [s]
  | x :: q' => if due x <=? due s then x :: enqueue s q' else s :: q
  end.

(** Modelled from the spec: [timeout] of [./utils.js], which [app.ts]
    imports and which is not among the sources.  A one-shot, cancellable
    timer: the callback runs once, [ms] milliseconds after the call or
    later, and the call returns the handle of the timer. *)
Definition timeout (ms : Z) (cb : callback) : M nat := fun st =>
  let id := next_source st in
  (Ret id, set_timers (enqueue (mkSource id (now st + ms) cb) (timers st)) (S id) st).

(** Running the callback of a source that came due. *)
Definition dispatch (s : source) (st : App) : App :=
  match action s with
  | HideWindow w => hide w (set_now (Z.max (now st) (due s)) st)
  end.

(** The main loop up to time [t]: every source due by [t] is removed from
    the queue and dispatched, in queue order. *)
Fixpoint run_queue (t : Z) (q : list source) (st : App) : App :=
  match q with
  | [] => st
  | s :: q' =>
      if due s <=? t
      then run_queue t q' (dispatch s (set_timers q' (next_source st) st))
      else st
  end.

Definition run_until (t : Z) (st : App) : App :=
  let st' := run_queue t (timers st) st in
  set_now (Z.max (now st') t) st'.

(** The sources the loop dispatches when it runs up to [t]: the prefix of
    the queue that is due. *)
Fixpoint take_due (t : Z) (q : list source) : list source :=
  match q with
  | [] => []
  | s :: q' => if due s <=? t then s :: take_due t q' else []
  end.

(** The queue is in order of due time. *)
Fixpoint ordered (q : list source) : Prop :=
  match q with
  | [] => True
  | s :: q' => Forall (fun x => due s <= due x) q' /\ ordered q'
  end.

(** Whether a source hides window [w] when it fires. *)
Definition targets (w : ref) (s : source) : bool :=
  match action s with
  | HideWindow w' => Nat.eqb w' w
  end.

(** ** Reading the trace *)

Fixpoint count {A} (p : A -> bool) (l : list A) : nat :=
  match l with
  | [] => 0%nat
  | x :: l' => ((if p x then 1 else 0) + count p l')%nat
  end.

(** A call of [w.hide()]. *)
Definition is_hide (w : ref) (e : effect) : bool :=
  match e with
  | WidgetHide w' => Nat.eqb w' w
  | _ => false
  end.

(** An emission of [window-toggled(name, b)]. *)
Definition is_toggled (name : string) (b : bool) (e : effect) : bool :=
  match e with
  | Emit (WindowToggled n v) => String.eqb n name && Bool.eqb v b
  | _ => false
  end.

(** A call of the global [print]. *)
Definition is_print (e : effect) : bool :=
  match e with
  | Print _ => true
  | _ => false
  end.

(** An emission of [config-parsed], and a call of [quit]. *)
Definition is_config_parsed (e : effect) : bool :=
  match e with
  | Emit ConfigParsed => true
  | _ => false
  end.

Definition is_quit (e : effect) : bool :=
  match e with
  | Quit => true
  | _ => false
  end.

(** ** The window registry *)

(** [getWindow(name)]. *)
Definition getWindow (name : string) : M (option ref) :=
  w <- gets (fun st => _windows st !! name) ;;
  match w with
  | Some w => ret (Some w)
  | None =>
      act (log [ConsoleError (Js.VErr (Js.Error_ ("There is no window named " +:+ name)))]) ;;
      ret None
  end.

(** [openWindow(name)]. *)
Definition openWindow (name : string) : M unit :=
  w <- getWindow name ;;
  match w with
  | Some w => act (show w)
  | None => ret tt
  end.

(** What [table[name]] gives on the delay table, a plain object whose own
    properties are the entries of [tbl]: the number of the entry, else a
    member of [Object.prototype] when [name] names one, else [undefined]. *)
Inductive delay :=
| Millis (ms : Z)
| Member
| NoDelay.

Definition delay_of (tbl : gmap string Z) (name : string) : delay :=
  match tbl !! name with
  | Some ms => Millis ms
  | None => if Js.inherited name then Member else NoDelay
  end.

(** Truthiness of such a value: [undefined] and [0] are falsy, a function
    or an object is truthy. *)
Definition truthy_delay (d : delay) : bool :=
  match d with
  | Millis ms => negb (Z.eqb ms 0)
  | Member => true
  | NoDelay => false
  end.

(** The interval the timer gets from such a value: the number itself; a
    member of [Object.prototype], converted to a number, is [NaN], an
    interval of 0. *)
Definition interval (d : delay) : Z :=
  match d with
  | Millis ms => ms
  | Member => 0
  | NoDelay => 0
  end.

(** [this._closeDelay[name]]: reading a property of [undefined] throws. *)
Definition closeDelay_get (name : string) : M delay := fun st =>
  match _closeDelay st with
  | Some tbl => (Ret (delay_of tbl name), st)
  | None => (Throw (Js.mkError "TypeError" "this._closeDelay is undefined"), st)
  end.

(** [closeWindow(name)]. *)
Definition closeWindow (name : string) : M unit :=
  w <- getWindow name ;;
  match w with
  | None => ret tt
  | Some w =>
      wvis <- gets (fun st => visible st w) ;;
      if negb wvis then ret tt
      else
        delay <- closeDelay_get name ;;
        wvis' <- gets (fun st => visible st w) ;;
        if truthy_delay delay && wvis'
        then
          _ <- timeout (interval delay) (HideWindow w) ;;
          emit (WindowToggled name false)
        else act (hide w)
  end.

(** [toggleWindow(name)]: returns the diagnostic string for an unknown
    name and [undefined] otherwise. *)
Definition toggleWindow (name : string) : M (option string) :=
  w <- getWindow name ;;
  match w with
  | Some w =>
      wvis <- gets (fun st => visible st w) ;;
      (if wvis then closeWindow name else openWindow name) ;;
      ret None
  | None => ret (Some ("There is no window named " +:+ name))
  end.

(** [console.error(Error(msg))]. *)
Definition console_error_Error (msg : string) : M unit :=
  act (log [ConsoleError (Js.VErr (Js.Error_ msg))]).

(** [addWindow(w)].  A reference that is not a live window of the heap
    fails the [instanceof] test like any other value; [`${w}`] of an object
    is written [[object Object]]. *)
Definition addWindow (a : arg) : M unit :=
  let not_a_window shown type_of :=
    console_error_Error (shown +:+ " is not an instanceof Gtk.Window, " +:+
                         " but it is of type " +:+ type_of) in
  match a with
  | NotObj shown type_of => not_a_window shown type_of
  | Obj w =>
      obj <- gets (fun st => heap st !! w) ;;
      match obj with
      | None => not_a_window "[object Object]" "object"
      | Some win =>
          if String.eqb (w_name win) EmptyString
          then console_error_Error ("[object Object]" +:+ " has no name")
          else
            act (fun st => set_heap (<[w := mkWindow (w_name win) (w_visible win)
                                                     (S (w_notify win))]> (heap st)) st) ;;
            has <- gets (fun st => bool_decide (is_Some (_windows st !! w_name win))) ;;
            if (has : bool)
            then
              console_error_Error ("There is already a window named" +:+ w_name win) ;;
              quit
            else act (fun st => set_windows (<[w_name win := w]> (_windows st)) st)
      end
  end.

(** ** The configuration *)

(** The default export of the configuration module.  An absent field is
    [None]; [onWindowToggled] records whether the field is a function;
    [onConfigParsed] is user code run against the application object. *)
Record Config := mkConfig {
  windows : option (list arg);
  style : option string;
  icons : option string;
  onWindowToggled : bool;
  onConfigParsed : option (M unit);
  closeWindowDelay : option (gmap string Z);
  notificationPopupTimeout : option Z;
  notificationForceTimeout : option bool;
  cacheNotificationActions : option bool;
  cacheCoverArt : option bool;
  maxStreamVolume : option Z
}.

(** [warning(from, to)] inside [deprecated]. *)
Definition warning (from to : string) : effect :=
  ConsoleWarn (from +:+ " config option has been removed: use " +:+ to +:+ " instead").

(** [deprecated(config)]: the warnings it prints, in order. *)
Definition deprecated (config : Config) : list effect :=
  (if bool_decide (is_Some (notificationPopupTimeout config))
   then [warning "notificationPopupTimeout" "Notifications.popupTimeout"] else []) ++
  (if bool_decide (is_Some (notificationForceTimeout config))
   then [warning "notificationForceTimeout" "Notifications.forceTimeout"] else []) ++
  (if bool_decide (is_Some (cacheNotificationActions config))
   then [warning "cacheNotificationActions" "Notifications.cacheActions"] else []) ++
  (if bool_decide (is_Some (cacheCoverArt config))
   then [warning "cacheCoverArt" "Mpris.cacheCoverArt"] else []) ++
  (if bool_decide (is_Some (maxStreamVolume config))
   then [warning "cacheCoverArt" "Audio.maxStreamVolume"] else []).

(** [array.forEach(f)]. *)
Fixpoint forEach {A} (f : A -> M unit) (l : list A) : M unit :=
  match l with
  | [] => ret tt
  | x :: l' => f x ;; forEach f l'
  end.

(** The test in the [catch] block of [_load]: the error is an
    [ImportError] whose message contains [msg]. *)
Definition entry_not_found (configPath : string) (err : Js.Error) : bool :=
  let msg := "Unable to load file from: file://" +:+ configPath in
  String.eqb (Js.name err) "ImportError" && Js.includes msg (Js.message err).

(** ** The remote execution bridge: scripts *)

(** How the promise of a script settles. *)
Inductive settlement :=
| Resolved (out : Js.value)
| Rejected (err : Js.value)
| Unsettled.

(** What [RunJs] can observe of one run of a compiled script: the values
    the script passes to its [print] parameter before its promise settles,
    how the promise settles, and the values the script still prints
    afterwards (from a callback it left behind).  What the script does to
    the application object through the global [App] is not part of the
    record. *)
Record script := mkScript {
  printed : list Js.value;
  settled : settlement;
  printed_later : list Js.value
}.

(** [clientBusName && clientObjPath], as a condition. *)
Definition client (busName objPath : option string) : bool :=
  Js.truthy_str busName && Js.truthy_str objPath.

(** The bus call made by [dbus(method)(out)] inside [RunJs]: the method
    is called on the object [objPath] of the bus name [busName], on the
    interface named like the bus name, with [`${out}`] as its argument. *)
Definition bus_call (busName objPath : option string) (method : string)
    (out : Js.value) : effect :=
  BusCall busName objPath busName method (Js.to_string out).

(** The text handed to [Function] by [RunJs]. *)
Definition script_source (js : string) : string :=
  "return (async function(print) {" +:+ Js.nl +:+
  "                " +:+ (if Js.includes ";" js then js else "return " +:+ js) +:+ Js.nl +:+
  "            })".

(** ** A fragment of JavaScript: sums of decimal literals

    What a text means is the engine's business, and the engine is a
    parameter of [RunJs].  For one family of texts the meaning is written
    out here: sums of decimal integer literals, with spaces and line feeds
    between the tokens.  Everything else is left to the engine. *)

Inductive token :=
| TNum (n : Z)
| TPlus
| TLine.

Definition digit (c : Ascii.ascii) : option Z :=
  let n := Z.of_nat (Ascii.nat_of_ascii c) in
  if (48 <=? n) && (n <=? 57) then Some (n - 48) else None.

(** The literal being read, if any, becomes a token. *)
Definition literal (cur : option Z) (ts : list token) : list token :=
  match cur with
  | Some n => TNum n :: ts
  | None => ts
  end.

(** The tokens of a text; [None] for a text with any other character, or
    with a literal that starts with 0 and goes on (a legacy octal literal
    or an error). *)
Fixpoint lex (cur : option Z) (s : string) : option (list token) :=
  match s with
  | EmptyString => Some (literal cur [])
  | String c s' =>
      match digit c with
      | Some d =>
          match cur with
          | None => lex (Some d) s'
          | Some n => if n =? 0 then None else lex (Some (10 * n + d)) s'
          end
      | None =>
          if Ascii.eqb c (Ascii.ascii_of_nat 32)
          then literal cur <$> lex None s'
          else if Ascii.eqb c (Ascii.ascii_of_nat 10)
          then (fun ts => literal cur (TLine :: ts)) <$> lex None s'
          else if Ascii.eqb c (Ascii.ascii_of_nat 43)
          then (fun ts => literal cur (TPlus :: ts)) <$> lex None s'
          else None
      end
  end.

(** The value of a sum, read from where an operator or an operand is
    expected.  A line feed inside a sum changes nothing; a literal where an
    operator is expected starts a statement of its own, which is left to
    the engine, like a unary plus and an unfinished sum. *)
Inductive expecting :=
| Operator
| Operand.

Fixpoint sum (e : expecting) (acc : Z) (ts : list token) : option Z :=
  match ts with
  | [] =>
      match e with
      | Operator => Some acc
      | Operand => None
      end
  | TLine :: ts' => sum e acc ts'
  | TPlus :: ts' =>
      match e with
      | Operator => sum Operand acc ts'
      | Operand => None
      end
  | TNum n :: ts' =>
      match e with
      | Operand => sum Operator (acc + n) ts'
      | Operator => None
      end
  end.

(** A number below 2^53 is exact, and its rendering is its decimal
    digits. *)
Definition number (z : Z) : option Js.value :=
  if z <? 2 ^ 53 then Some (Js.VNum (pretty z)) else None.

Definition is_line (t : token) : bool :=
  match t with
  | TLine => true
  | _ => false
  end.

(** What the statement [return <js>] at the end of a function body
    returns.  With nothing after [return] on its line the statement is
    complete and returns [undefined]; a sum on the lines below is then a
    statement of its own, evaluated and dropped. *)
Definition returned (js : string) : option Js.value :=
  match lex None js with
  | None => None
  | Some [] => Some Js.VUndefined
  | Some (TLine :: ts) =>
      if forallb is_line ts then Some Js.VUndefined
      else
        match sum Operand 0 ts with
        | Some z => if z <? 2 ^ 53 then Some Js.VUndefined else None
        | None => None
        end
  | Some (TNum n :: ts) =>
      match sum Operator n ts with
      | Some z => number z
      | None => None
      end
  | Some (TPlus :: _) => None
  end.

(** Taking a text apart. *)
Fixpoint strip_prefix (p s : string) : option string :=
  match p with
  | EmptyString => Some s
  | String a p' =>
      match s with
      | EmptyString => None
      | String b s' => if Ascii.eqb a b then strip_prefix p' s' else None
      end
  end.

Fixpoint strip_suffix (q s : string) : option string :=
  if String.eqb s q then Some EmptyString
  else
    match s with
    | EmptyString => None
    | String c s' => String c <$> strip_suffix q s'
    end.

(** The body of the asynchronous function in a text made by
    [script_source]. *)
Definition function_body (src : string) : option string :=
  match strip_prefix ("return (async function(print) {" +:+ Js.nl +:+
                      "                ") src with
  | Some s => strip_suffix (Js.nl +:+ "            })") s
  | None => None
  end.

(** JavaScript on the fragment: a text made by [script_source] whose body
    is [return] and a sum compiles to a script that prints nothing and
    whose promise resolves to what the statement returns. *)
Definition arithmetic (src : string) : option script :=
  match function_body src with
  | Some body =>
      match strip_prefix "return " body with
      | Some js =>
          match returned js with
          | Some v => Some (mkScript [] (Resolved v) [])
          | None => None
          end
      | None => None
      end
  | None => None
  end.

Section Environment.

(** What the process finds around it: whether Gdk has a default screen,
    what [cssProvider.load_from_path] does with a path ([Some e]: it
    throws [e]), what the dynamic [import] of a URL yields (it throws, or
    gives a module with or without a truthy [default] export), the
    JavaScript engine behind [Function] (a [SyntaxError], or a compiled
    script), and how the promise built by [RunPromise] from a text
    settles. *)
Variable screen : bool.
Variable load_from_path : string -> option Js.Error.
Variable import_ : string -> outcome (option Config).
Variable Function_ : string -> Js.Error + script.
Variable Promise_ : string -> settlement.

(** [applyCss(path)].  The handler the method connects to
    [parsing-error] only writes to the console, whenever Gtk reports an
    error in the style sheet; that output is not recorded here. *)
Definition applyCss (path : string) : M unit :=
  if negb screen
  then act (log [ConsoleError (Js.VStr "couldn't get screen")])
  else
    match load_from_path path with
    | Some e => throw e
    | None =>
        act (log [CssProvider path]) ;;
        act (fun st => set_cssProviders (_cssProviders st ++ [path]) st)
    end.

(** A path of the configuration that starts with a dot is taken relative
    to the configuration directory. *)
Definition resolve (dir path : string) : string :=
  if Js.startsWith "." path then dir +:+ Js.slice1 path else path.

(** [_load()]. *)
Definition _load : M unit :=
  try_catch
    (configPath <- gets _configPath ;;
     entry <- (fun st => (import_ ("file://" +:+ configPath), st)) ;;
     match entry with
     | None =>
         act (log [ConsoleError (Js.VStr "Missing default export")]) ;;
         emit ConfigParsed
     | Some config =>
         act (log (deprecated config)) ;;
         act (set_closeDelay (Some (default ∅ (closeWindowDelay config)))) ;;
         (if Js.truthy_str (style config)
          then configDir <- gets _configDir ;;
               applyCss (resolve configDir (default EmptyString (style config)))
          else ret tt) ;;
         (if Js.truthy_str (icons config)
          then configDir <- gets _configDir ;;
               act (log [IconSearchPath (resolve configDir (default EmptyString (icons config)))])
          else ret tt) ;;
         (if onWindowToggled config
          then act (log [Connect "window-toggled"])
          else ret tt) ;;
         match windows config with
         | Some ws => forEach addWindow ws
         | None => ret tt
         end ;;
         match onConfigParsed config with
         | Some f => f
         | None => ret tt
         end ;;
         emit ConfigParsed
     end)
    (fun err =>
       act (log [LogError (Js.VErr err)]) ;;
       configPath <- gets _configPath ;;
       if entry_not_found configPath err
       then
         act (log [Print ("config file not found: " +:+ Js.dquote +:+ configPath
                          +:+ Js.dquote)]) ;;
         quit
       else ret tt).

(** [RunJs(js, clientBusName, clientObjPath)].  Inside the method,
    [response] and [print] are the two closures made by [dbus]. *)
Definition RunJs (js : string) (clientBusName clientObjPath : option string)
  : M unit :=
  let dbus (method : string) (out : Js.value) : M unit :=
    act (log [bus_call clientBusName clientObjPath method out]) in
  let response := dbus "Return" in
  let print := dbus "Print" in
  let client := client clientBusName clientObjPath in
  match Function_ (script_source js) with
  | inl error =>
      if client then response (Js.VErr error)
      else act (log [LogError (Js.VErr error)])
  | inr fn =>
      forEach print (printed fn) ;;
      match settled fn with
      | Resolved out =>
          if client then response (Js.VStr (Js.to_string out))
          else print (Js.VStr (Js.to_string out))
      | Rejected err =>
          if client then response (Js.VStr (Js.to_string err))
          else act (log [LogError err])
      | Unsettled => ret tt
      end ;;
      forEach print (printed_later fn)
  end.

(** What the results on the fragment ask of the engine: to be JavaScript
    on the sums. *)
Definition sums_as_JavaScript : Prop :=
  forall src fn, arithmetic src = Some fn -> Function_ src = inr fn.

(** [RunPromise(js, busName, objPath)]: the deprecated sibling of [RunJs].
    Its script receives [resolve] and [reject] and no [print]; here
    [print] is the global function. *)
Definition RunPromise (js : string) (busName objPath : option string) : M unit :=
  act (log [ConsoleWarn ("--run-promise is DEPRECATED, " +:+
                         " use --run-js instead, which now supports await syntax")]) ;;
  let client := client busName objPath in
  let response (out : Js.value) : M unit :=
    act (log [bus_call busName objPath "Return" out]) in
  match Promise_ js with
  | Resolved out =>
      if client then response (Js.VStr (Js.to_string out))
      else act (log [Print (Js.to_string out)])
  | Rejected err =>
      if client then response (Js.VStr (Js.to_string err))
      else act (log [ConsoleError (Js.VStr (Js.to_string err))])
  | Unsettled => ret tt
  end.

End Environment.

(** [ToggleWindow(name)]. *)
Definition ToggleWindow (name : string) : M string :=
  toggleWindow name ;;
  w <- getWindow name ;;
  fun st =>
    (Ret (Js.to_string (match w with
                        | Some w => Js.VBool (visible st w)
                        | None => Js.VUndefined
                        end)), st).

(** ** A small shell

    Four windows after a successful load: [bar] closes after 300 ms, [menu]
    has a delay of 0, [dock] has no entry in the delay table, and [osd] is
    hidden. *)
Definition shell_heap : list Window :=
  [mkWindow "bar" true 1; mkWindow "menu" true 1;
   mkWindow "dock" true 1; mkWindow "osd" false 1].

Definition shell_delays : gmap string Z :=
  {[ "bar" := 300; "menu" := 0; "osd" := 200 ]}.

Definition shell : App :=
  mkApp {[ "bar" := 0%nat; "menu" := 1%nat; "dock" := 2%nat; "osd" := 3%nat ]}
        (Some shell_delays) []
        "/home/user/.config/ags/config.js" "/home/user/.config/ags"
        shell_heap [] 0 0 [].

(** A shell whose only window is named like a member of
    [Object.prototype], with an empty delay table. *)
Definition odd_shell : App :=
  mkApp {[ "toString" := 0%nat ]} (Some ∅) []
        "/home/user/.config/ags/config.js" "/home/user/.config/ags"
        [mkWindow "toString" true 1] [] 0 0 [].

(** A shell whose visible bar is registered, next to a second, hidden
    window object of the same name. *)
Definition bar_twice : App :=
  mkApp {[ "bar" := 0%nat ]} (Some ∅) []
        "/home/user/.config/ags/config.js" "/home/user/.config/ags"
        [mkWindow "bar" true 1; mkWindow "bar" false 0] [] 0 0 [].

(** The shell after [closeWindow("bar")]: the close is pending. *)
Definition shell_closing : App := exec (closeWindow "bar") shell.

(** What [closeWindow] leaves behind for a registered window [w] once the
    delay table [tbl] is loaded: nothing changes for a hidden window, a
    truthy delay schedules the hide and emits the signal, and otherwise
    the window is hidden at once. *)
Definition closed (name : string) (w : ref) (tbl : gmap string Z) (st : App) : App :=
  if visible st w
  then
    if truthy_delay (delay_of tbl name)
    then log [Emit (WindowToggled name false)]
           (set_timers
              (enqueue (mkSource (next_source st) (now st + interval (delay_of tbl name))
                                 (HideWindow w)) (timers st))
              (S (next_source st)) st)
    else hide w st
  else st.

(** The same four window objects before the configuration is loaded:
    created by the configuration module, not yet registered. *)
Definition fresh : App :=
  mkApp ∅ None []
        "/home/user/.config/ags/config.js" "/home/user/.config/ags"
        [mkWindow "bar" true 0; mkWindow "menu" true 0;
         mkWindow "dock" true 0; mkWindow "osd" false 0] [] 0 0 [].

(** Two window objects with the same name, not yet registered. *)
Definition two_bars : App :=
  mkApp ∅ None [] "/home/user/.config/ags/config.js" "/home/user/.config/ags"
        [mkWindow "bar" false 0; mkWindow "bar" false 0] [] 0 0 [].

(** ** Sample environments *)

(** A configuration that sets nothing. *)
Definition empty_config : Config :=
  mkConfig None None None false None None None None None None None.

(** A configuration whose only field is the legacy [maxStreamVolume]. *)
Definition volume_config : Config :=
  mkConfig None None None false None None None None None None (Some 150).

(** A configuration that declares two windows and whose [onConfigParsed]
    callback throws. *)
Definition throwing_config : Config :=
  mkConfig (Some [Obj 0; Obj 1]) None None false
           (Some (throw (Js.mkError "TypeError" "foo is not a function")))
           None None None None None None.

(** Imports: a module that does not parse, a module without a default
    export, a missing entry file, and a module exporting a configuration. *)
Definition import_syntax_error (url : string) : outcome (option Config) :=
  Throw (Js.mkError "SyntaxError" "unexpected token").

Definition import_no_default (url : string) : outcome (option Config) :=
  Ret None.

Definition import_not_found (url : string) : outcome (option Config) :=
  Throw (Js.mkError "ImportError" ("Unable to load file from: " +:+ url +:+ " (not found)")).

Definition import_config (config : Config) (url : string) : outcome (option Config) :=
  Ret (Some config).

Definition css_ok (path : string) : option Js.Error := None.

(** An engine that knows the sums of the fragment and two more script
    texts, a script that prints and returns and a script whose promise
    rejects, and takes every other text for one that does not parse. *)
Definition engine (src : string) : Js.Error + script :=
  match arithmetic src with
  | Some fn => inr fn
  | None =>
      if String.eqb src (script_source "print('hi'); return 1;")
      then inr (mkScript [Js.VStr "hi"] (Resolved (Js.VNum "1")) [])
      else if String.eqb src (script_source "await Promise.reject(new Error('x'));")
      then inr (mkScript [] (Rejected (Js.VErr (Js.Error_ "x"))) [])
      else inl (Js.mkError "SyntaxError" "expected expression, got '}'")
  end.

(** The promise [RunPromise] builds from [resolve(1+1)]. *)
Definition promise_engine (js : string) : settlement :=
  if String.eqb js "resolve(1+1)" then Resolved (Js.VNum "2") else Unsettled.

(** ** The rest of the class *)

(** Calls on the backend that the trace has no name for.  The two methods
    below give the ones they make, in order, next to the application
    object they leave. *)
Inductive gtk_call :=
| Destroy (w : ref)                  (* win.destroy() *)
| RemoveProvider (path : string).    (* remove_provider_for_screen *)

(** The name [removeWindow] looks up: the string itself, or for an
    object [w.name || 'gtk-layer-shell']. *)
Definition removal_name (w : string + ref) (st : App) : string :=
  match w with
  | inl name => name
  | inr r =>
      match heap st !! r with
      | Some win =>
          if String.eqb (w_name win) EmptyString then "gtk-layer-shell"
          else w_name win
      | None => "gtk-layer-shell"
      end
  end.

(** [win.destroy()] on a top-level window: Gtk hides a window that is
    still visible, and that change of [visible] is notified like any
    other, to the handlers [addWindow] connected. *)
Definition destroy (w : ref) (st : App) : App := set_visible w false st.

(** [removeWindow(w)], for a name or a window object. *)
Definition removeWindow (w : string + ref) (st : App) : list gtk_call * App :=
  let name := removal_name w st in
  match _windows st !! name with
  | None =>
      ([], log [ConsoleError (Js.VErr (Js.Error_ ("There is no window named " +:+ name)))] st)
  | Some win =>
      let st1 := destroy win st in
      ([Destroy win], set_windows (delete name (_windows st1)) st1)
  end.

(** [resetCss()]; [screen] tells whether Gdk has a default screen. *)
Definition resetCss (screen : bool) (st : App) : list gtk_call * App :=
  if negb screen
  then ([], log [ConsoleError (Js.VStr "couldn't get screen")] st)
  else (map RemoveProvider (_cssProviders st), set_cssProviders [] st).

(** [s.split('\n')] and [l.join('\n')]. *)
Fixpoint split_nl (s : string) : list string :=
  match s with
  | EmptyString => [EmptyString]
  | String c s' =>
      if Ascii.eqb c (Ascii.ascii_of_nat 10) then EmptyString :: split_nl s'
      else
        match split_nl s' with
        | x :: xs => String c x :: xs
        | [] => [String c EmptyString]
        end
  end.

Fixpoint join_nl (l : list string) : string :=
  match l with
  | [] => EmptyString
  | x :: l' =>
      match l' with
      | [] => x
      | _ :: _ => x +:+ Js.nl +:+ join_nl l'
      end
  end.

(** What [RunFile] does to the content it read:
    [content.split('\n').slice(1).join('\n')] when it starts with [#!]. *)
Definition strip_shebang (content : string) : string :=
  if Js.startsWith "#!" content then join_nl (tail (split_nl content))
  else content.

(** [RunFile(file, bus, path)].  [readFileAsync] of [./utils.js] is not
    among the sources and depends on the file system: it is the parameter
    that gives, for a path, the content of the file or the value its
    promise rejects with.  The final [catch] also receives what the [then]
    callback throws. *)
Definition RunFile (readFileAsync : string -> Js.value + string)
    (Function_ : string -> Js.Error + script)
    (file : string) (bus path : option string) : M unit :=
  match readFileAsync file with
  | inl err => act (log [LogError err])
  | inr content =>
      try_catch (RunJs Function_ (strip_shebang content) bus path)
                (fun e => act (log [LogError (Js.VErr e)]))
  end.

(** [w.name] for a reference; the empty name for a reference outside
    the heap. *)
Definition name_of (st : App) (w : ref) : string :=
  match heap st !! w with
  | Some win => w_name win
  | None => EmptyString
  end.

(** A step keeps the registry when it leaves the entries as they are and
    the name of every object as it is. *)
Definition keeps_registry (st st' : App) : Prop :=
  _windows st' = _windows st /\
  forall r : ref, w_name <$> heap st' !! r = w_name <$> heap st !! r.

(** A [Return] bus call: the reply to a caller. *)
Definition is_return (e : effect) : bool :=
  match e with
  | BusCall _ _ _ method _ => String.eqb method "Return"
  | _ => false
  end.

(** Whether a call of [RunJs] comes to an answer: the text does not
    compile, or the promise of the script settles. *)
Definition answered (compiled : Js.Error + script) : bool :=
  match compiled with
  | inl _ => true
  | inr fn =>
      match settled fn with
      | Unsettled => false
      | _ => true
      end
  end.

(** A bus call, whatever its method. *)
Definition is_bus_call (e : effect) : bool :=
  match e with
  | BusCall _ _ _ _ _ => true
  | _ => false
  end.

(** A configuration that only declares windows, with a delay table. *)
Definition windows_config (ws : list arg) (delays : gmap string Z) : Config :=
  mkConfig (Some ws) None None false None (Some delays) None None None None None.

(** A configuration with a style sheet and windows. *)
Definition styled_config (css : string) (ws : list arg) : Config :=
  mkConfig (Some ws) (Some css) None false None None None None None None None.

(** A style sheet that does not load. *)
Definition css_broken (path : string) : option Js.Error :=
  Some (Js.mkError "GLib.Error" ("Failed to import: " +:+ path)).

(** A file system with one script that starts with a shebang line. *)
Definition sample_files (file : string) : Js.value + string :=
  if String.eqb file "/home/user/one.js"
  then inr ("#!/usr/bin/env -S ags --run-file" +:+ Js.nl +:+ "1+1")
  else inl (Js.VErr (Js.mkError "GLib.FileError" "No such file or directory")).

(** * Properties *)

(** ** Counting in traces and queues *)

Lemma count_app {A} (p : A -> bool) (l1 l2 : list A) :
  count p (l1 ++ l2) = (count p l1 + count p l2)%nat.
Proof. induction l1 as [|x l1 IH]; cbn; [reflexivity|]. rewrite IH. lia. Qed.

Lemma count_repeat_false {A} (p : A -> bool) (x : A) (n : nat) :
  p x = false -> count p (repeat x n) = 0%nat.
Proof. intros Hp. induction n as [|n IH]; cbn; [reflexivity|]. now rewrite Hp, IH. Qed.

Lemma count_enqueue (p : source -> bool) (s : source) (q : list source) :
  count p (enqueue s q) = ((if p s then 1 else 0) + count p q)%nat.
Proof.
  induction q as [|x q IH]; cbn; [lia|].
  destruct (due x <=? due s); cbn; [rewrite IH|]; lia.
Qed.

Lemma count_elem {A} (p : A -> bool) (l : list A) (x : A) :
  x ∈ l -> p x = true -> (1 <= count p l)%nat.
Proof.
  induction l as [|y l IH]; [now intros ?%elem_of_nil|].
  intros [->|Hin]%elem_of_cons Hp; cbn.
  - rewrite Hp. lia.
  - specialize (IH Hin Hp). lia.
Qed.

(** ** The due prefix of the queue *)

Lemma take_due_elem (t : Z) (q : list source) (s : source) :
  s ∈ take_due t q -> s ∈ q /\ due s <= t.
Proof.
  induction q as [|x q IH]; cbn; [now intros ?%elem_of_nil|].
  destruct (Z.leb_spec (due x) t) as [Hx|Hx]; [|now intros ?%elem_of_nil].
  intros [->|Hin]%elem_of_cons.
  - split; [left|assumption].
  - destruct (IH Hin). split; [now right|assumption].
Qed.

Lemma take_due_enqueue_due (t : Z) (s : source) (q : list source) :
  due s <= t -> take_due t (enqueue s q) = enqueue s (take_due t q).
Proof.
  intros Hs. induction q as [|x q IH]; cbn.
  - destruct (Z.leb_spec (due s) t); [reflexivity|lia].
  - destruct (Z.leb_spec (due x) (due s)) as [Hxs|Hxs]; cbn.
    + destruct (Z.leb_spec (due x) t); [|lia]. cbn.
      destruct (Z.leb_spec (due x) (due s)); [|lia]. now rewrite IH.
    + destruct (Z.leb_spec (due s) t); [|lia].
      destruct (Z.leb_spec (due x) t); cbn; [|reflexivity].
      destruct (Z.leb_spec (due x) (due s)); [lia|reflexivity].
Qed.

Lemma take_due_enqueue_later (t : Z) (s : source) (q : list source) :
  t < due s -> take_due t (enqueue s q) = take_due t q.
Proof.
  intros Hs. induction q as [|x q IH]; cbn.
  - destruct (Z.leb_spec (due s) t); [lia|reflexivity].
  - destruct (Z.leb_spec (due x) (due s)) as [Hxs|Hxs]; cbn.
    + now rewrite IH.
    + destruct (Z.leb_spec (due s) t); [lia|].
      destruct (Z.leb_spec (due x) t); [lia|reflexivity].
Qed.

Lemma elem_of_enqueue (s : source) (q : list source) : s ∈ enqueue s q.
Proof.
  induction q as [|x q IH]; cbn; [left|].
  destruct (due x <=? due s); [now right|left].
Qed.

Lemma enqueue_elem (s x : source) (q : list source) :
  x ∈ enqueue s q <-> x = s \/ x ∈ q.
Proof.
  induction q as [|y q IH]; cbn.
  - rewrite list_elem_of_singleton. rewrite elem_of_nil. tauto.
  - destruct (due y <=? due s); rewrite !elem_of_cons; [rewrite IH|]; tauto.
Qed.

Lemma enqueue_ordered (s : source) (q : list source) :
  ordered q -> ordered (enqueue s q).
Proof.
  induction q as [|y q IH]; cbn; [now split|].
  intros [Hall Hq]. destruct (Z.leb_spec (due y) (due s)) as [Hys|Hys]; cbn.
  - split; [|now apply IH].
    apply Forall_forall. intros x [->|Hx]%enqueue_elem; [assumption|].
    rewrite Forall_forall in Hall. now apply Hall.
  - split; [|now split].
    constructor; [lia|]. eapply Forall_impl; [exact Hall|]. cbn. intros; lia.
Qed.

Lemma take_due_ordered (t : Z) (q : list source) (s : source) :
  ordered q -> s ∈ q -> due s <= t -> s ∈ take_due t q.
Proof.
  induction q as [|y q IH]; cbn; [now intros _ ?%elem_of_nil|].
  intros [Hall Hq] [->|Hin]%elem_of_cons Hs.
  - destruct (Z.leb_spec (due y) t); [left|lia].
  - rewrite Forall_forall in Hall. specialize (Hall s Hin).
    destruct (Z.leb_spec (due y) t); [|lia]. right. now apply IH.
Qed.

(** ** The backend: what [show] and [hide] change *)

Lemma visible_heap (st : App) (w : ref) (win : Window) :
  heap st !! w = Some win -> visible st w = w_visible win.
Proof. intros Hw. unfold visible. now rewrite Hw. Qed.

Lemma visible_log (es : list effect) (st : App) (w : ref) :
  visible (log es st) w = visible st w.
Proof. reflexivity. Qed.

Lemma set_visible_same (w : ref) (b : bool) (st : App) (win : Window) :
  heap st !! w = Some win -> visible (set_visible w b st) w = b.
Proof.
  intros Hw. unfold set_visible. rewrite Hw.
  destruct (Bool.eqb_spec (w_visible win) b) as [Heq|Hne].
  - unfold visible. rewrite Hw. exact Heq.
  - unfold visible; cbn. rewrite list_lookup_insert_eq; [reflexivity|].
    eapply lookup_lt_Some, Hw.
Qed.

Lemma set_visible_other (w w' : ref) (b : bool) (st : App) :
  w' <> w -> visible (set_visible w' b st) w = visible st w.
Proof.
  intros Hne. unfold set_visible.
  destruct (heap st !! w') as [win|]; [|reflexivity].
  destruct (Bool.eqb (w_visible win) b); [reflexivity|].
  unfold visible; cbn. now rewrite list_lookup_insert_ne.
Qed.

Lemma hide_visible_same (w : ref) (st : App) : visible (hide w st) w = false.
Proof.
  unfold hide. destruct (heap st !! w) as [win|] eqn:Hw.
  - now apply set_visible_same with win.
  - unfold set_visible, visible; cbn. rewrite Hw. cbn. now rewrite Hw.
Qed.

Lemma hide_visible_false (w w' : ref) (st : App) :
  visible st w = false -> visible (hide w' st) w = false.
Proof.
  intros Hv. destruct (Nat.eq_dec w' w) as [->|Hne].
  - apply hide_visible_same.
  - unfold hide. now rewrite set_visible_other.
Qed.

Lemma hide_visible_other (w w' : ref) (st : App) :
  w' <> w -> visible (hide w' st) w = visible st w.
Proof. intros Hne. unfold hide. now rewrite set_visible_other. Qed.

(** The trace of one [hide]: the call, then one [window-toggled] per
    connected handler when the window was visible. *)
Lemma hide_trace (w : ref) (st : App) (win : Window) :
  heap st !! w = Some win ->
  trace (hide w st) =
    trace st ++ WidgetHide w ::
      (if w_visible win
       then repeat (Emit (WindowToggled (w_name win) false)) (w_notify win)
       else []).
Proof.
  intros Hw. unfold hide, set_visible; cbn. rewrite Hw.
  destruct (w_visible win); cbn; [|reflexivity].
  now rewrite <- app_assoc.
Qed.

Lemma hide_calls (w w' : ref) (st : App) :
  count (is_hide w) (trace (hide w' st)) =
    (count (is_hide w) (trace st) + (if Nat.eqb w' w then 1 else 0))%nat.
Proof.
  unfold hide, set_visible; cbn.
  destruct (heap st !! w') as [win|]; cbn.
  - destruct (Bool.eqb (w_visible win) false); cbn.
    + rewrite count_app; cbn. lia.
    + rewrite !count_app; cbn. rewrite count_repeat_false by reflexivity. lia.
  - rewrite count_app; cbn. lia.
Qed.

Lemma hide_frame (w : ref) (st : App) :
  timers (hide w st) = timers st /\ next_source (hide w st) = next_source st /\
  now (hide w st) = now st /\ _windows (hide w st) = _windows st /\
  _closeDelay (hide w st) = _closeDelay st.
Proof.
  unfold hide, set_visible; cbn.
  destruct (heap st !! w) as [win|]; [|now repeat split].
  destruct (Bool.eqb (w_visible win) false); now repeat split.
Qed.

(** ** The main loop *)

Lemma run_queue_visible_false (t : Z) (q : list source) (st : App) (w : ref) :
  visible st w = false -> visible (run_queue t q st) w = false.
Proof.
  revert st. induction q as [|s q IH]; intros st Hv; cbn; [assumption|].
  destruct (due s <=? t); [|assumption].
  apply IH. unfold dispatch. destruct (action s) as [w'].
  now apply hide_visible_false.
Qed.

Lemma run_queue_visible_kept (t : Z) (q : list source) (st : App) (w : ref) :
  (forall s, s ∈ take_due t q -> targets w s = false) ->
  visible (run_queue t q st) w = visible st w.
Proof.
  revert st. induction q as [|s q IH]; intros st Hq; cbn; [reflexivity|].
  cbn in Hq. destruct (due s <=? t); [|reflexivity].
  rewrite IH by (intros s' Hs'; apply Hq; now right).
  specialize (Hq s (list_elem_of_here _ _)). unfold targets in Hq. unfold dispatch.
  destruct (action s) as [w']. apply Nat.eqb_neq in Hq.
  now rewrite hide_visible_other.
Qed.

Lemma run_queue_fires (t : Z) (q : list source) (st : App) (w : ref) (s : source) :
  s ∈ take_due t q -> targets w s = true ->
  visible (run_queue t q st) w = false.
Proof.
  revert st. induction q as [|x q IH]; intros st Hin Ht; cbn in *.
  - now apply elem_of_nil in Hin.
  - destruct (due x <=? t); [|now apply elem_of_nil in Hin].
    apply elem_of_cons in Hin as [->|Hin]; [|now apply IH].
    apply run_queue_visible_false. unfold dispatch, targets in *.
    destruct (action x) as [w']. apply Nat.eqb_eq in Ht as ->.
    apply hide_visible_same.
Qed.

Lemma run_queue_hide_calls (t : Z) (q : list source) (st : App) (w : ref) :
  count (is_hide w) (trace (run_queue t q st)) =
    (count (is_hide w) (trace st) + count (targets w) (take_due t q))%nat.
Proof.
  revert st. induction q as [|s q IH]; intros st; cbn; [lia|].
  destruct (due s <=? t); cbn; [|lia].
  rewrite IH. unfold dispatch, targets. destruct (action s) as [w'].
  rewrite hide_calls. cbn. lia.
Qed.

Lemma run_until_visible (t : Z) (st : App) (w : ref) :
  visible (run_until t st) w = visible (run_queue t (timers st) st) w.
Proof. reflexivity. Qed.

Lemma run_until_trace (t : Z) (st : App) :
  trace (run_until t st) = trace (run_queue t (timers st) st).
Proof. reflexivity. Qed.

(** ** Closing a registered window *)

Lemma delay_of_own (tbl : gmap string Z) (name : string) (d : Z) :
  tbl !! name = Some d -> delay_of tbl name = Millis d.
Proof. intros H. unfold delay_of. now rewrite H. Qed.

Lemma delay_of_absent (tbl : gmap string Z) (name : string) :
  tbl !! name = None -> Js.inherited name = false -> delay_of tbl name = NoDelay.
Proof. intros H Hi. unfold delay_of. now rewrite H, Hi. Qed.

Section Registry.
Variables (st : App) (name : string) (w : ref).
Hypothesis Hreg : _windows st !! name = Some w.

Lemma getWindow_registered : getWindow name st = (Ret (Some w), st).
Proof. unfold getWindow, bind, gets, ret. now rewrite Hreg. Qed.

Lemma closeWindow_not_visible :
  visible st w = false -> closeWindow name st = (Ret tt, st).
Proof.
  intros Hv. unfold closeWindow, bind. rewrite getWindow_registered.
  unfold gets. now rewrite Hv.
Qed.

Lemma closeWindow_deferred tbl :
  visible st w = true -> _closeDelay st = Some tbl ->
  truthy_delay (delay_of tbl name) = true ->
  closeWindow name st =
    (Ret tt,
     log [Emit (WindowToggled name false)]
         (set_timers (enqueue (mkSource (next_source st)
                                        (now st + interval (delay_of tbl name))
                                        (HideWindow w))
                              (timers st))
                     (S (next_source st)) st)).
Proof.
  intros Hv Htbl Hd. unfold closeWindow, bind. rewrite getWindow_registered.
  unfold gets. rewrite Hv. cbn [negb]. unfold bind, closeDelay_get.
  rewrite Htbl, Hd, Hv. reflexivity.
Qed.

Lemma closeWindow_scheduled tbl d :
  visible st w = true -> _closeDelay st = Some tbl -> tbl !! name = Some d ->
  d <> 0 ->
  closeWindow name st =
    (Ret tt,
     log [Emit (WindowToggled name false)]
         (set_timers (enqueue (mkSource (next_source st) (now st + d) (HideWindow w))
                              (timers st))
                     (S (next_source st)) st)).
Proof.
  intros Hv Htbl Hd Hnz. rewrite (closeWindow_deferred tbl Hv Htbl).
  - now rewrite (delay_of_own tbl name d Hd).
  - rewrite (delay_of_own tbl name d Hd). cbn.
    now apply negb_true_iff, Z.eqb_neq.
Qed.

Lemma closeWindow_immediate tbl :
  visible st w = true -> _closeDelay st = Some tbl ->
  truthy_delay (delay_of tbl name) = false ->
  closeWindow name st = (Ret tt, hide w st).
Proof.
  intros Hv Htbl Hd. unfold closeWindow, bind. rewrite getWindow_registered.
  unfold gets. rewrite Hv. cbn [negb]. unfold bind, closeDelay_get.
  rewrite Htbl, Hd. reflexivity.
Qed.

(** Before [_load] has set the delay table, closing a visible window
    throws. *)
Lemma closeWindow_before_load :
  visible st w = true -> _closeDelay st = None ->
  closeWindow name st =
    (Throw (Js.mkError "TypeError" "this._closeDelay is undefined"), st).
Proof.
  intros Hv Htbl. unfold closeWindow, bind. rewrite getWindow_registered.
  unfold gets. rewrite Hv. cbn [negb]. unfold bind, closeDelay_get.
  now rewrite Htbl.
Qed.

End Registry.

Lemma getWindow_unknown (st : App) (name : string) :
  _windows st !! name = None ->
  getWindow name st =
    (Ret None,
     log [ConsoleError (Js.VErr (Js.Error_ ("There is no window named " +:+ name)))] st).
Proof. intros Hreg. unfold getWindow, bind, gets. now rewrite Hreg. Qed.

Lemma closeWindow_loaded (st : App) (name : string) (w : ref) (tbl : gmap string Z) :
  _windows st !! name = Some w -> _closeDelay st = Some tbl ->
  closeWindow name st = (Ret tt, closed name w tbl st).
Proof.
  intros Hreg Htbl. unfold closed.
  destruct (visible st w) eqn:Hv.
  - destruct (truthy_delay (delay_of tbl name)) eqn:Hd.
    + now apply closeWindow_deferred.
    + now apply closeWindow_immediate with tbl.
  - now apply closeWindow_not_visible with w.
Qed.

(** ** The queue stays in order of due time *)

Lemma run_queue_ordered (t : Z) (q : list source) (st : App) :
  timers st = q -> ordered q -> ordered (timers (run_queue t q st)).
Proof.
  revert st. induction q as [|s q IH]; intros st Hq Hord; cbn.
  - now rewrite Hq.
  - destruct (due s <=? t); [|now rewrite Hq].
    apply IH; [|apply Hord].
    unfold dispatch. destruct (action s) as [w].
    now rewrite (proj1 (hide_frame w _)).
Qed.

Lemma run_until_ordered (t : Z) (st : App) :
  ordered (timers st) -> ordered (timers (run_until t st)).
Proof. intros Hord. unfold run_until; cbn. now apply run_queue_ordered. Qed.

Lemma closeWindow_ordered (name : string) (st : App) :
  ordered (timers st) -> ordered (timers (exec (closeWindow name) st)).
Proof.
  intros Hord. unfold exec.
  destruct (_windows st !! name) as [w|] eqn:Hreg.
  - destruct (_closeDelay st) as [tbl|] eqn:Htbl.
    + rewrite (closeWindow_loaded st name w tbl Hreg Htbl). cbn [snd]. unfold closed.
      destruct (visible st w); [|assumption].
      destruct (truthy_delay (delay_of tbl name)).
      * cbn. now apply enqueue_ordered.
      * now rewrite (proj1 (hide_frame w st)).
    + destruct (visible st w) eqn:Hv.
      * now rewrite (closeWindow_before_load st name w Hreg Hv Htbl).
      * now rewrite (closeWindow_not_visible st name w Hreg Hv).
  - unfold closeWindow, bind. now rewrite (getWindow_unknown st name Hreg).
Qed.

(** ** The delayed close *)

(** C7, refuted on the sample shell: the bar, with its delay of 300 ms,
    is closed at 0 ms and, still visible, closed again at 100 ms.  The
    second request is made at 100 ms, and the window is hidden at 300 ms,
    200 ms after it, by the timer of the first request. *)
Lemma closeWindow_delay_counterexample :
  let st1 := run_until 100 (exec (closeWindow "bar") shell) in
  let st2 := exec (closeWindow "bar") st1 in
  shell_delays !! "bar" = Some 300 /\
  now st1 = 100 /\
  visible st1 0 = true /\
  trace st2 = trace st1 ++ [Emit (WindowToggled "bar" false)] /\
  visible st2 0 = true /\
  visible (run_until 300 st2) 0 = false /\
  300 < now st1 + 300.
Proof. vm_compute. repeat split. Qed.

(** C7 as the code has it: for a registered window whose name has a delay
    [d > 0] in the table, a close request on the visible window returns at
    once having
    emitted [window-toggled(name, false)] and scheduled one source due [d]
    milliseconds later; the window is still visible after the call, stays
    visible while the loop runs to any time before [now + d] (as long as no
    other pending source hides it earlier), and is hidden once the loop has
    run to [now + d] or later.  On a window that is not visible the request
    changes nothing: no timer, no event. *)
Theorem closeWindow_delay_announces_then_hides
    (st : App) (name : string) (w : ref) (win : Window)
    (tbl : gmap string Z) (d : Z) :
  _windows st !! name = Some w ->
  heap st !! w = Some win ->
  _closeDelay st = Some tbl ->
  tbl !! name = Some d ->
  0 < d ->
  (w_visible win = true ->
   let st' := exec (closeWindow name) st in
   result (closeWindow name) st = Ret tt /\
   trace st' = trace st ++ [Emit (WindowToggled name false)] /\
   heap st' = heap st /\
   visible st' w = true /\
   timers st' =
     enqueue (mkSource (next_source st) (now st + d) (HideWindow w)) (timers st) /\
   (forall t, t < now st + d ->
      (forall s, s ∈ timers st -> targets w s = true -> t < due s) ->
      visible (run_until t st') w = true) /\
   (forall t, now st + d <= t -> visible (run_until t st') w = false)) /\
  (w_visible win = false -> closeWindow name st = (Ret tt, st)).
Proof.
  intros Hreg Hw Htbl Hd Hpos. split.
  - intros Hv. rewrite <- (visible_heap st w win Hw) in Hv.
    unfold exec, result.
    rewrite (closeWindow_scheduled st name w Hreg tbl d Hv Htbl Hd) by lia.
    cbn [fst snd]. repeat split.
    + exact Hv.
    + intros t Ht Hothers. rewrite run_until_visible. cbn [timers log set_trace set_timers].
      rewrite run_queue_visible_kept; [exact Hv|].
      intros s Hs. rewrite take_due_enqueue_later in Hs by (cbn; lia).
      apply take_due_elem in Hs as [Hin Hdue].
      destruct (targets w s) eqn:Hts; [|reflexivity].
      specialize (Hothers s Hin Hts). lia.
    + intros t Ht. rewrite run_until_visible. cbn [timers log set_trace set_timers].
      eapply run_queue_fires.
      * rewrite take_due_enqueue_due by (cbn; lia). apply elem_of_enqueue.
      * unfold targets; cbn. apply Nat.eqb_refl.
  - intros Hv. apply closeWindow_not_visible with w; [assumption|].
    now rewrite (visible_heap st w win Hw).
Qed.

(** The bar of the sample shell: the event is immediate, the window is
    visible at 299 ms and hidden at 300 ms. *)
Lemma closeWindow_delay_witness :
  let st' := exec (closeWindow "bar") shell in
  (trace st' = [Emit (WindowToggled "bar" false)] /\
   visible st' 0 = true /\
   visible (run_until 299 st') 0 = true /\
   visible (run_until 300 st') 0 = false) /\
  closeWindow "osd" shell = (Ret tt, shell).
Proof.
  split.
  - destruct (closeWindow_delay_announces_then_hides shell "bar" 0
                (mkWindow "bar" true 1) shell_delays 300
                eq_refl eq_refl eq_refl eq_refl ltac:(lia)) as [H _].
    destruct (H eq_refl) as (_ & Htr & _ & Hv & _ & Hbefore & Hafter).
    split; [exact Htr|]. split; [exact Hv|]. split.
    + apply Hbefore; [cbn; lia|]. cbn. now intros s ?%elem_of_nil.
    + apply Hafter. cbn. lia.
  - exact (proj2 (closeWindow_delay_announces_then_hides shell "osd" 3
                    (mkWindow "osd" false 1) shell_delays 200
                    eq_refl eq_refl eq_refl eq_refl ltac:(lia)) eq_refl).
Defined.

(** C10 at a name that is absent from the table and names a member of
    [Object.prototype].  The delay is read by [this._closeDelay[name]] on
    a plain object, which finds that member for a name without an entry,
    a truthy value where the claim expects none.  For a
    visible registered window with such a name and no entry in the table,
    a close request does not hide the window: it takes the delayed branch,
    emits [window-toggled(name, false)] ahead of any hide, queues a source
    that hides the window, and returns with the window still visible and
    no [hide] called. *)
Theorem closeWindow_inherited_name_is_delayed
    (st : App) (name : string) (w : ref) (win : Window) (tbl : gmap string Z) :
  _windows st !! name = Some w ->
  heap st !! w = Some win ->
  w_visible win = true ->
  _closeDelay st = Some tbl ->
  tbl !! name = None ->
  Js.inherited name = true ->
  let st' := exec (closeWindow name) st in
  result (closeWindow name) st = Ret tt /\
  st' <> hide w st /\
  visible st' w = true /\
  trace st' = trace st ++ [Emit (WindowToggled name false)] /\
  count (is_hide w) (trace st') = count (is_hide w) (trace st) /\
  (exists s, timers st' = enqueue s (timers st) /\ action s = HideWindow w) /\
  count (targets w) (timers st') = S (count (targets w) (timers st)).
Proof.
  intros Hreg Hw Hv Htbl Hd Hin. unfold exec, result.
  assert (Hvis : visible st w = true) by now rewrite (visible_heap st w win Hw).
  assert (Hdel : delay_of tbl name = Member)
    by (unfold delay_of; now rewrite Hd, Hin).
  rewrite (closeWindow_deferred st name w Hreg tbl Hvis Htbl)
    by now rewrite Hdel.
  cbn [fst snd]. split; [reflexivity|]. split; [|split; [|split; [|split; [|split]]]].
  - intros Heq. apply (f_equal (fun s => visible s w)) in Heq.
    rewrite hide_visible_same in Heq.
    rewrite visible_log in Heq. unfold visible in Heq, Hvis. cbn in Heq.
    congruence.
  - rewrite visible_log. exact Hvis.
  - reflexivity.
  - cbn [trace log set_trace set_timers]. rewrite count_app. cbn. lia.
  - eexists. split; [reflexivity|]. reflexivity.
  - cbn [timers log set_trace set_timers]. rewrite count_enqueue.
    unfold targets at 1. cbn. now rewrite Nat.eqb_refl.
Qed.

(** The window named [toString] of a shell with an empty delay table. *)
Lemma closeWindow_inherited_name_witness :
  let st' := exec (closeWindow "toString") odd_shell in
  visible st' 0 = true /\
  trace st' = [Emit (WindowToggled "toString" false)] /\
  count (targets 0) (timers st') = 1%nat.
Proof.
  destruct (closeWindow_inherited_name_is_delayed odd_shell "toString" 0
              (mkWindow "toString" true 1) ∅
              eq_refl eq_refl eq_refl eq_refl eq_refl eq_refl)
    as (_ & _ & Hv & Htr & _ & _ & Hq).
  split; [exact Hv|]. split; [exact Htr | exact Hq].
Defined.

(** ** The immediate close *)

(** X22: for a visible registered window whose name maps to 0 in the
    delay table, or has no entry and is not the name of a member of
    [Object.prototype], a close request hides the window during the call:
    the queue of timers is unchanged, the window is hidden on return, and
    the only [window-toggled] events are those the widget's own
    [notify::visible] handlers emit after [w.hide()].  Both cases give the
    same state, [hide w st]. *)
Theorem closeWindow_zero_delay_is_immediate
    (st : App) (name : string) (w : ref) (win : Window) (tbl : gmap string Z) :
  _windows st !! name = Some w ->
  heap st !! w = Some win ->
  w_visible win = true ->
  _closeDelay st = Some tbl ->
  tbl !! name = Some 0 \/ (tbl !! name = None /\ Js.inherited name = false) ->
  let st' := exec (closeWindow name) st in
  result (closeWindow name) st = Ret tt /\
  st' = hide w st /\
  timers st' = timers st /\
  visible st' w = false /\
  trace st' =
    trace st ++ WidgetHide w ::
      repeat (Emit (WindowToggled (w_name win) false)) (w_notify win).
Proof.
  intros Hreg Hw Hv Htbl Hd. unfold exec, result.
  rewrite (closeWindow_immediate st name w Hreg tbl).
  - cbn [fst snd]. repeat split.
    + apply hide_frame.
    + apply hide_visible_same.
    + rewrite (hide_trace w st win Hw). now rewrite Hv.
  - now rewrite (visible_heap st w win Hw).
  - assumption.
  - destruct Hd as [Hd | [Hd Hin]].
    + now rewrite (delay_of_own tbl name 0 Hd).
    + now rewrite (delay_of_absent tbl name Hd Hin).
Qed.

(** The menu (delay 0) and the dock (no entry) of the sample shell. *)
Lemma closeWindow_zero_delay_witness :
  (trace (exec (closeWindow "menu") shell) =
     [WidgetHide 1%nat; Emit (WindowToggled "menu" false)] /\
   timers (exec (closeWindow "menu") shell) = []) /\
  (trace (exec (closeWindow "dock") shell) =
     [WidgetHide 2%nat; Emit (WindowToggled "dock" false)] /\
   timers (exec (closeWindow "dock") shell) = []).
Proof.
  split.
  - destruct (closeWindow_zero_delay_is_immediate shell "menu" 1%nat
                (mkWindow "menu" true 1) shell_delays
                eq_refl eq_refl eq_refl eq_refl (or_introl eq_refl))
      as (_ & _ & Hq & _ & Htr).
    split; [exact Htr | exact Hq].
  - destruct (closeWindow_zero_delay_is_immediate shell "dock" 2%nat
                (mkWindow "dock" true 1) shell_delays
                eq_refl eq_refl eq_refl eq_refl (or_intror (conj eq_refl eq_refl)))
      as (_ & _ & Hq & _ & Htr).
    split; [exact Htr | exact Hq].
Defined.

(** ** A second close, or an open, while a close is pending *)

(** C1, refuted on the sample shell: the bar is closed at 0 ms and again at
    100 ms.  The first source is still queued next to the second one, the
    second request emits a second [window-toggled("bar", false)], and both
    sources call [hide] when the loop reaches 400 ms. *)
Lemma closeWindow_twice_counterexample :
  let st1 := run_until 100 (exec (closeWindow "bar") shell) in
  let st2 := exec (closeWindow "bar") st1 in
  timers st1 = [mkSource 0 300 (HideWindow 0)] /\
  trace st1 = [Emit (WindowToggled "bar" false)] /\
  trace st2 = [Emit (WindowToggled "bar" false); Emit (WindowToggled "bar" false)] /\
  timers st2 = [mkSource 0 300 (HideWindow 0); mkSource 1 400 (HideWindow 0)] /\
  trace (run_until 400 st2) =
    [Emit (WindowToggled "bar" false); Emit (WindowToggled "bar" false);
     WidgetHide 0; Emit (WindowToggled "bar" false); WidgetHide 0].
Proof. vm_compute. repeat split. Qed.

(** C1 as the code has it: [closeWindow] keeps no handle of the timers it
    starts and cancels none.  When a source [s] that hides the window is
    already pending, a further close request on the still visible window
    emits [window-toggled(name, false)] again and adds a second source to
    the queue; [s] stays queued.  Once both delays have elapsed, the loop
    has called [hide] at least twice more, exactly once more than it would
    have without the second request. *)
Theorem closeWindow_while_pending_adds_timer
    (st : App) (name : string) (w : ref) (win : Window)
    (tbl : gmap string Z) (d : Z) (s : source) :
  _windows st !! name = Some w ->
  heap st !! w = Some win ->
  w_visible win = true ->
  _closeDelay st = Some tbl ->
  tbl !! name = Some d ->
  0 < d ->
  ordered (timers st) ->
  s ∈ timers st ->
  targets w s = true ->
  let st' := exec (closeWindow name) st in
  let s' := mkSource (next_source st) (now st + d) (HideWindow w) in
  trace st' = trace st ++ [Emit (WindowToggled name false)] /\
  count (is_toggled name false) (trace st') =
    S (count (is_toggled name false) (trace st)) /\
  timers st' = enqueue s' (timers st) /\
  s ∈ timers st' /\
  count (targets w) (timers st') = S (count (targets w) (timers st)) /\
  forall t, now st + d <= t -> due s <= t ->
    (count (is_hide w) (trace st') + 2
       <= count (is_hide w) (trace (run_until t st')))%nat /\
    count (is_hide w) (trace (run_until t st')) =
      S (count (is_hide w) (trace (run_until t st))).
Proof.
  intros Hreg Hw Hv Htbl Hd Hpos Hord Hs Hts.
  rewrite <- (visible_heap st w win Hw) in Hv.
  unfold exec.
  rewrite (closeWindow_scheduled st name w Hreg tbl d Hv Htbl Hd) by lia.
  cbn [snd]. set (s' := mkSource _ _ _).
  assert (Hs' : targets w s' = true) by (unfold targets; cbn; apply Nat.eqb_refl).
  split; [reflexivity|]. split; [|split; [reflexivity|split; [|split]]].
  - cbn [trace log set_trace set_timers]. rewrite count_app. cbn.
    rewrite String.eqb_refl. cbn. lia.
  - cbn. apply enqueue_elem. now right.
  - cbn [timers log set_trace set_timers]. rewrite count_enqueue, Hs'. lia.
  - intros t Ht Hdue. split.
    + rewrite run_until_trace, run_queue_hide_calls.
      cbn [timers log set_trace set_timers].
      rewrite take_due_enqueue_due by (cbn; lia).
      rewrite count_enqueue, Hs'.
      pose proof (count_elem (targets w) _ s
                    (take_due_ordered t _ s Hord Hs Hdue) Hts).
      lia.
    + rewrite !run_until_trace, !run_queue_hide_calls.
      cbn [timers log set_trace set_timers trace].
      rewrite take_due_enqueue_due by (cbn; lia).
      rewrite count_enqueue, Hs', count_app. cbn. lia.
Qed.

(** The sample shell, 100 ms into the pending close of its bar. *)
Lemma closeWindow_while_pending_witness :
  let st := run_until 100 shell_closing in
  let st' := exec (closeWindow "bar") st in
  trace st' = trace st ++ [Emit (WindowToggled "bar" false)] /\
  count (targets 0%nat) (timers st') = 2%nat /\
  count (is_hide 0%nat) (trace (run_until 400 st')) = 2%nat.
Proof.
  destruct (closeWindow_while_pending_adds_timer (run_until 100 shell_closing)
              "bar" 0%nat (mkWindow "bar" true 1) shell_delays 300
              (mkSource 0 300 (HideWindow 0))
              eq_refl eq_refl eq_refl eq_refl eq_refl ltac:(lia)
              ltac:(repeat constructor) (list_elem_of_here _ _) eq_refl)
    as (Htr & _ & _ & _ & Hq & Hrun).
  split; [exact Htr|]. split; [exact Hq|].
  destruct (Hrun 400) as [_ Hcalls]; [now apply Z.leb_le | now apply Z.leb_le |].
  exact Hcalls.
Defined.

(** C6, refuted on the sample shell: the bar is closed at 0 ms and opened
    at 100 ms.  The source is still queued after [openWindow], and at
    300 ms it calls [hide]: the window ends up hidden. *)
Lemma openWindow_pending_counterexample :
  let st1 := run_until 100 (exec (closeWindow "bar") shell) in
  let st2 := exec (openWindow "bar") st1 in
  timers st1 = [mkSource 0 300 (HideWindow 0)] /\
  timers st2 = [mkSource 0 300 (HideWindow 0)] /\
  visible st2 0 = true /\
  visible (run_until 300 st2) 0 = false /\
  trace (run_until 300 st2) =
    [Emit (WindowToggled "bar" false); WidgetShow 0;
     WidgetHide 0; Emit (WindowToggled "bar" false)].
Proof. vm_compute. repeat split. Qed.

Lemma openWindow_registered (st : App) (name : string) (w : ref) :
  _windows st !! name = Some w -> openWindow name st = (Ret tt, show w st).
Proof. intros Hreg. unfold openWindow, bind. now rewrite getWindow_registered with (w := w). Qed.

Lemma show_visible_already (st : App) (w : ref) (win : Window) :
  heap st !! w = Some win -> w_visible win = true ->
  show w st = log [WidgetShow w] st.
Proof.
  intros Hw Hv. unfold show, set_visible. cbn [heap log set_trace].
  now rewrite Hw, Hv.
Qed.

(** C6 as the code has it: [openWindow] only calls [show].  On a visible
    window with a pending source [s] that hides it, [openWindow] changes
    nothing but the record of the [show] call: the queue of timers is the
    same, and once [s] is due the loop calls [hide] and the window is
    hidden. *)
Theorem openWindow_keeps_pending_close
    (st : App) (name : string) (w : ref) (win : Window) (s : source) :
  _windows st !! name = Some w ->
  heap st !! w = Some win ->
  w_visible win = true ->
  ordered (timers st) ->
  s ∈ timers st ->
  targets w s = true ->
  let st' := exec (openWindow name) st in
  result (openWindow name) st = Ret tt /\
  st' = log [WidgetShow w] st /\
  timers st' = timers st /\
  visible st' w = true /\
  forall t, due s <= t ->
    visible (run_until t st') w = false /\
    (count (is_hide w) (trace st') < count (is_hide w) (trace (run_until t st')))%nat.
Proof.
  intros Hreg Hw Hv Hord Hs Hts. unfold exec, result.
  rewrite (openWindow_registered st name w Hreg).
  rewrite (show_visible_already st w win Hw Hv). cbn [fst snd].
  split; [reflexivity|]. split; [reflexivity|]. split; [reflexivity|]. split.
  - unfold visible. cbn. now rewrite Hw.
  - intros t Hdue. split.
    + rewrite run_until_visible. cbn [timers log set_trace].
      eapply run_queue_fires; [|exact Hts]. now apply take_due_ordered.
    + rewrite run_until_trace, run_queue_hide_calls. cbn [timers log set_trace].
      pose proof (count_elem (targets w) _ s
                    (take_due_ordered t _ s Hord Hs Hdue) Hts).
      lia.
Qed.

(** The sample shell, 100 ms into the pending close of its bar. *)
Lemma openWindow_keeps_pending_witness :
  let st := run_until 100 shell_closing in
  let st' := exec (openWindow "bar") st in
  timers st' = timers st /\ visible (run_until 300 st') 0 = false.
Proof.
  destruct (openWindow_keeps_pending_close (run_until 100 shell_closing)
              "bar" 0%nat (mkWindow "bar" true 1) (mkSource 0 300 (HideWindow 0))
              eq_refl eq_refl eq_refl
              ltac:(repeat constructor) (list_elem_of_here _ _) eq_refl)
    as (_ & _ & Hq & _ & Hrun).
  split; [exact Hq|]. destruct (Hrun 300) as [Hv _]; [now apply Z.leb_le|]. exact Hv.
Defined.

Lemma closed_windows (name : string) (w : ref) (tbl : gmap string Z) (st : App) :
  _windows (closed name w tbl st) = _windows st.
Proof.
  unfold closed. destruct (visible st w); [|reflexivity].
  destruct (truthy_delay (delay_of tbl name)); [reflexivity|]. apply hide_frame.
Qed.


Lemma show_visible_same (w : ref) (st : App) (win : Window) :
  heap st !! w = Some win -> visible (show w st) w = true.
Proof. intros Hw. unfold show. now apply set_visible_same with win. Qed.





(** ** Registering windows *)

Lemma addWindow_named (st : App) (w : ref) (win : Window) :
  heap st !! w = Some win -> w_name win <> EmptyString ->
  addWindow (Obj w) st =
    (Ret tt,
     let st1 := set_heap (<[w := mkWindow (w_name win) (w_visible win)
                                          (S (w_notify win))]> (heap st)) st in
     match _windows st !! w_name win with
     | Some _ =>
         log [ConsoleError (Js.VErr (Js.Error_
                ("There is already a window named" +:+ w_name win))); Quit] st1
     | None => set_windows (<[w_name win := w]> (_windows st)) st1
     end).
Proof.
  intros Hw Hname. unfold addWindow, bind at 1, gets at 1. rewrite Hw.
  apply String.eqb_neq in Hname. rewrite Hname.
  unfold bind, act, gets. cbn [_windows set_heap].
  destruct (_windows st !! w_name win) as [w0|]; cbn.
  - unfold console_error_Error, quit, act, log, set_trace. cbn.
    now rewrite <- app_assoc.
  - reflexivity.
Qed.

(** C3: two windows with the same non-empty name, added to a registry
    that does not have the name.  The first call enters its window under
    the name and logs nothing; the second logs the duplicate and calls
    [quit], and the registry still maps the name to the first window. *)
Theorem addWindow_duplicate_quits
    (st : App) (n : string) (w1 w2 : ref) (win1 win2 : Window) :
  n <> EmptyString ->
  _windows st !! n = None ->
  heap st !! w1 = Some win1 ->
  heap st !! w2 = Some win2 ->
  w_name win1 = n ->
  w_name win2 = n ->
  let st1 := exec (addWindow (Obj w1)) st in
  let st2 := exec (addWindow (Obj w2)) st1 in
  _windows st1 = <[n := w1]> (_windows st) /\
  trace st1 = trace st /\
  _windows st2 = _windows st1 /\
  _windows st2 !! n = Some w1 /\
  trace st2 =
    trace st1 ++
      [ConsoleError (Js.VErr (Js.Error_ ("There is already a window named" +:+ n)));
       Quit].
Proof.
  intros Hn Hfree Hw1 Hw2 Hn1 Hn2. unfold exec.
  rewrite (addWindow_named st w1 win1 Hw1) by congruence.
  cbn [snd]. rewrite Hn1, Hfree.
  set (st1 := set_windows _ _).
  assert (Hw2' : exists win2', heap st1 !! w2 = Some win2' /\ w_name win2' = n).
  { subst st1. cbn [heap set_windows set_heap]. rewrite list_lookup_insert.
    case_decide; [eexists; split; [reflexivity|reflexivity]|eauto]. }
  destruct Hw2' as (win2' & Hw2' & Hn2').
  rewrite (addWindow_named st1 w2 win2' Hw2') by congruence.
  cbn [snd]. rewrite Hn2'.
  assert (Hreg : _windows st1 !! n = Some w1) by (subst st1; cbn; apply lookup_insert_eq).
  rewrite Hreg. repeat split. exact Hreg.
Qed.

(** Two bars. *)
Lemma addWindow_duplicate_witness :
  let st1 := exec (addWindow (Obj 0)) two_bars in
  let st2 := exec (addWindow (Obj 1)) st1 in
  _windows st1 = <[ "bar" := 0%nat ]> ∅ /\
  _windows st2 !! "bar" = Some 0%nat /\
  trace st2 =
    [ConsoleError (Js.VErr (Js.Error_ "There is already a window namedbar")); Quit].
Proof.
  destruct (addWindow_duplicate_quits two_bars "bar" 0 1
              (mkWindow "bar" false 0) (mkWindow "bar" false 0)
              ltac:(discriminate) eq_refl eq_refl eq_refl eq_refl eq_refl)
    as (H1 & _ & _ & H2 & H3).
  split; [exact H1|]. split; [exact H2 | exact H3].
Defined.

(** ** Deprecated options *)

(** C9 at a configuration that sets only [maxStreamVolume]: the single
    warning printed names [cacheCoverArt] as the removed option, and no
    warning names [maxStreamVolume]. *)
Theorem deprecated_maxStreamVolume_names_cacheCoverArt :
  deprecated volume_config =
    [ConsoleWarn
       "cacheCoverArt config option has been removed: use Audio.maxStreamVolume instead"] /\
  forall to, warning "maxStreamVolume" to ∉ deprecated volume_config.
Proof.
  split; [reflexivity|].
  intros to Hin. cbn in Hin. apply list_elem_of_singleton in Hin. discriminate Hin.
Qed.

(** The four other legacy options are named by their warnings. *)
Lemma deprecated_names_the_other_options (config : Config) :
  (is_Some (notificationPopupTimeout config) ->
   warning "notificationPopupTimeout" "Notifications.popupTimeout" ∈ deprecated config) /\
  (is_Some (notificationForceTimeout config) ->
   warning "notificationForceTimeout" "Notifications.forceTimeout" ∈ deprecated config) /\
  (is_Some (cacheNotificationActions config) ->
   warning "cacheNotificationActions" "Notifications.cacheActions" ∈ deprecated config) /\
  (is_Some (cacheCoverArt config) ->
   warning "cacheCoverArt" "Mpris.cacheCoverArt" ∈ deprecated config).
Proof.
  unfold deprecated. repeat split; intros H; rewrite !elem_of_app;
    rewrite (bool_decide_eq_true_2 _ H).
  - left. left.
  - right; left. left.
  - right; right; left. left.
  - right; right; right; left. left.
Qed.

(** No configuration at all gets a warning that names [maxStreamVolume]. *)
Lemma deprecated_never_names_maxStreamVolume (config : Config) (to : string) :
  warning "maxStreamVolume" to ∉ deprecated config.
Proof.
  unfold deprecated. rewrite !elem_of_app.
  intros [H|[H|[H|[H|H]]]];
    match type of H with
    | _ ∈ (if ?b then _ else _) => destruct b
    end;
    try (now apply elem_of_nil in H);
    apply list_elem_of_singleton in H; discriminate H.
Qed.

(** ** Loading the configuration *)

(** A configuration that sets nothing loads: the delay table becomes the
    empty table and [config-parsed] is emitted. *)
Example _load_empty_config :
  _load true css_ok (import_config empty_config) fresh =
    (Ret tt, log [Emit ConfigParsed] (set_closeDelay (Some ∅) fresh)).
Proof. reflexivity. Qed.

Section Loader.
Variable screen : bool.
Variable load_from_path : string -> option Js.Error.
Variable import_ : string -> outcome (option Config).

Lemma _load_no_default (st : App) :
  import_ ("file://" +:+ _configPath st) = Ret None ->
  _load screen load_from_path import_ st =
    (Ret tt, log [ConsoleError (Js.VStr "Missing default export"); Emit ConfigParsed] st).
Proof.
  intros Himp. unfold _load, try_catch, bind, gets. rewrite Himp.
  unfold emit, act, log, set_trace. cbn. now rewrite <- app_assoc.
Qed.

Lemma _load_import_throws (st : App) (e : Js.Error) :
  import_ ("file://" +:+ _configPath st) = Throw e ->
  _load screen load_from_path import_ st =
    (Ret tt,
     log (LogError (Js.VErr e) ::
          if entry_not_found (_configPath st) e
          then [Print ("config file not found: " +:+ Js.dquote +:+ _configPath st
                       +:+ Js.dquote); Quit]
          else []) st).
Proof.
  intros Himp. unfold _load, try_catch, bind, gets. rewrite Himp.
  cbn [act log set_trace _configPath].
  destruct (entry_not_found (_configPath st) e).
  - unfold quit, act, log, set_trace. cbn. now rewrite <- !app_assoc.
  - reflexivity.
Qed.

(** C5 as the code has it.  A module without a default export: the loader
    logs [Missing default export] and emits [config-parsed]; nothing else
    changes, so no window is registered and [quit] is not called.  An
    import that throws anything but the entry-file-not-found error: the
    loader logs the error and changes nothing else, so it registers no
    window, does not call [quit] and emits no [config-parsed].  An import
    that throws the entry-file-not-found error: the loader logs it, prints
    the path and calls [quit]. *)
Theorem _load_failure_paths (st : App) :
  let url := "file://" +:+ _configPath st in
  (import_ url = Ret None ->
   result (_load screen load_from_path import_) st = Ret tt /\
   exec (_load screen load_from_path import_) st =
     log [ConsoleError (Js.VStr "Missing default export"); Emit ConfigParsed] st) /\
  (forall e, import_ url = Throw e ->
     entry_not_found (_configPath st) e = false ->
     result (_load screen load_from_path import_) st = Ret tt /\
     exec (_load screen load_from_path import_) st = log [LogError (Js.VErr e)] st /\
     count is_config_parsed (trace (exec (_load screen load_from_path import_) st)) = count is_config_parsed (trace st) /\
     count is_quit (trace (exec (_load screen load_from_path import_) st)) = count is_quit (trace st)) /\
  (forall e, import_ url = Throw e ->
     entry_not_found (_configPath st) e = true ->
     exec (_load screen load_from_path import_) st =
       log [LogError (Js.VErr e);
            Print ("config file not found: " +:+ Js.dquote +:+ _configPath st
                   +:+ Js.dquote);
            Quit] st).
Proof.
  cbn zeta. split; [|split].
  - intros Himp. unfold result, exec. now rewrite (_load_no_default st Himp).
  - intros e Himp Hnf. unfold result, exec.
    rewrite (_load_import_throws st e Himp), Hnf. cbn [fst snd].
    split; [reflexivity|]. split; [reflexivity|].
    cbn [trace log set_trace]. rewrite !count_app. cbn. lia.
  - intros e Himp Hnf. unfold exec.
    now rewrite (_load_import_throws st e Himp), Hnf.
Qed.
End Loader.

(** The three imports on the shell before its load. *)
Lemma _load_failure_witness :
  exec (_load true css_ok import_no_default) fresh =
    log [ConsoleError (Js.VStr "Missing default export"); Emit ConfigParsed] fresh /\
  exec (_load true css_ok import_syntax_error) fresh =
    log [LogError (Js.VErr (Js.mkError "SyntaxError" "unexpected token"))] fresh /\
  trace (exec (_load true css_ok import_not_found) fresh) =
    [LogError (Js.VErr (Js.mkError "ImportError"
        "Unable to load file from: file:///home/user/.config/ags/config.js (not found)"));
     Print ("config file not found: " +:+ Js.dquote +:+
            "/home/user/.config/ags/config.js" +:+ Js.dquote);
     Quit].
Proof.
  split; [|split].
  - exact (proj2 (proj1 (_load_failure_paths true css_ok import_no_default fresh) eq_refl)).
  - exact (proj1 (proj2 (proj1 (proj2 (_load_failure_paths true css_ok
                                         import_syntax_error fresh))
                          _ eq_refl eq_refl))).
  - exact (f_equal trace
             (proj2 (proj2 (_load_failure_paths true css_ok import_not_found fresh))
                    _ eq_refl eq_refl)).
Defined.

(** C5, refuted: a configuration module that does not parse is logged and
    no [config-parsed] is emitted; and when the [onConfigParsed] callback
    throws, the error is logged, no [config-parsed] is emitted, and the two
    windows of the configuration are registered all the same. *)
Lemma _load_error_counterexample :
  let st1 := exec (_load true css_ok import_syntax_error) fresh in
  let st2 := exec (_load true css_ok (import_config throwing_config)) fresh in
  trace st1 = [LogError (Js.VErr (Js.mkError "SyntaxError" "unexpected token"))] /\
  count is_config_parsed (trace st1) = 0%nat /\
  trace st2 = [LogError (Js.VErr (Js.mkError "TypeError" "foo is not a function"))] /\
  count is_config_parsed (trace st2) = 0%nat /\
  _windows st2 !! "bar" = Some 0%nat /\
  _windows st2 !! "menu" = Some 1%nat.
Proof. vm_compute. repeat split. Qed.

(** ** The remote execution bridge *)

Lemma forEach_log {A} (f : A -> effect) (l : list A) (st : App) :
  forEach (fun x => act (log [f x])) l st = (Ret tt, log (map f l) st).
Proof.
  revert st. induction l as [|x l IH]; intros st; cbn.
  - unfold ret, log, set_trace. rewrite app_nil_r. now destruct st.
  - unfold bind, act. rewrite IH. unfold log, set_trace; cbn.
    now rewrite <- app_assoc.
Qed.

Lemma log_log (es1 es2 : list effect) (st : App) :
  log es2 (log es1 st) = log (es1 ++ es2) st.
Proof. unfold log, set_trace; cbn. now rewrite app_assoc. Qed.

Section Bridge.
Variable Function_ : string -> Js.Error + script.

Lemma RunJs_compile_error (js : string) (bus path : option string) (st : App)
    (e : Js.Error) :
  Function_ (script_source js) = inl e ->
  RunJs Function_ js bus path st =
    (Ret tt,
     log [if client bus path then bus_call bus path "Return" (Js.VErr e)
          else LogError (Js.VErr e)] st).
Proof.
  intros Hc. unfold RunJs. rewrite Hc. now destruct (client bus path).
Qed.

Lemma RunJs_compiled (js : string) (bus path : option string) (st : App)
    (fn : script) :
  Function_ (script_source js) = inr fn ->
  RunJs Function_ js bus path st =
    (Ret tt,
     log (map (fun v => bus_call bus path "Print" v) (printed fn) ++
          match settled fn with
          | Resolved out =>
              [bus_call bus path (if client bus path then "Return" else "Print") out]
          | Rejected err =>
              [if client bus path then bus_call bus path "Return" err
               else LogError err]
          | Unsettled => []
          end ++
          map (fun v => bus_call bus path "Print" v) (printed_later fn)) st).
Proof.
  intros Hc. unfold RunJs. rewrite Hc. unfold bind at 1.
  rewrite (forEach_log (fun v => bus_call bus path "Print" v)).
  destruct (settled fn) as [out|err|]; unfold bind.
  - destruct (client bus path); unfold act;
      rewrite (forEach_log (fun v => bus_call bus path "Print" v));
      now rewrite !log_log.
  - destruct (client bus path); unfold act;
      rewrite (forEach_log (fun v => bus_call bus path "Print" v));
      now rewrite !log_log.
  - unfold ret. rewrite (forEach_log (fun v => bus_call bus path "Print" v)).
    now rewrite log_log.
Qed.

Lemma count_print_bus_calls (bus path : option string) (l : list Js.value) :
  count is_print (map (fun v => bus_call bus path "Print" v) l) = 0%nat.
Proof. induction l as [|v l IH]; cbn; [reflexivity|exact IH]. Qed.

(** Whatever the script and whoever the caller, [RunJs] never calls the
    global [print]. *)
Lemma RunJs_never_prints_locally (js : string) (bus path : option string) (st : App) :
  count is_print (trace (exec (RunJs Function_ js bus path) st)) =
    count is_print (trace st).
Proof.
  unfold exec. destruct (Function_ (script_source js)) as [e|fn] eqn:Hc.
  - rewrite (RunJs_compile_error js bus path st e Hc). cbn [snd trace log set_trace].
    rewrite count_app. destruct (client bus path); cbn; lia.
  - rewrite (RunJs_compiled js bus path st fn Hc). cbn [snd trace log set_trace].
    rewrite !count_app, !count_print_bus_calls.
    destruct (settled fn) as [out|err|]; [| destruct (client bus path) |]; cbn; lia.
Qed.

(** C4 at a text that starts with a line feed.  The text has no semicolon,
    so it is handed to [Function] behind [return]; with nothing after
    [return] on its line, that statement is complete and returns
    [undefined], and the sum on the next line is evaluated and dropped.
    With a caller, [RunJs] answers by one [Return] call carrying
    [undefined] where the value of the expression is [2]; the same sum on
    the first line is answered by [2]. *)
Theorem RunJs_line_feed_returns_undefined (bus path : option string) (st : App) :
  sums_as_JavaScript Function_ ->
  client bus path = true ->
  Js.includes ";" (Js.nl +:+ "1+1") = false /\
  script_source (Js.nl +:+ "1+1") =
    "return (async function(print) {" +:+ Js.nl +:+
    "                return " +:+ Js.nl +:+
    "1+1" +:+ Js.nl +:+
    "            })" /\
  result (RunJs Function_ (Js.nl +:+ "1+1") bus path) st = Ret tt /\
  trace (exec (RunJs Function_ (Js.nl +:+ "1+1") bus path) st) =
    trace st ++ [BusCall bus path bus "Return" "undefined"] /\
  trace (exec (RunJs Function_ "1+1" bus path) st) =
    trace st ++ [BusCall bus path bus "Return" "2"].
Proof.
  intros Hjs Hcl. split; [reflexivity|]. split; [reflexivity|].
  pose proof (Hjs (script_source (Js.nl +:+ "1+1")) _ eq_refl) as Hc1.
  pose proof (Hjs (script_source "1+1") _ eq_refl) as Hc2.
  unfold result, exec.
  rewrite (RunJs_compiled _ bus path st _ Hc1), (RunJs_compiled _ bus path st _ Hc2).
  cbn [fst snd trace log set_trace printed settled printed_later map app].
  rewrite Hcl. now split.
Qed.
End Bridge.

Lemma engine_sums : sums_as_JavaScript engine.
Proof. intros src fn H. unfold engine. now rewrite H. Qed.

(** The sample engine and a caller. *)
Lemma RunJs_line_feed_witness :
  trace (exec (RunJs engine (Js.nl +:+ "1+1") (Some ":1.42") (Some "/client")) shell) =
    [BusCall (Some ":1.42") (Some "/client") (Some ":1.42") "Return" "undefined"] /\
  trace (exec (RunJs engine "1+1" (Some ":1.42") (Some "/client")) shell) =
    [BusCall (Some ":1.42") (Some "/client") (Some ":1.42") "Return" "2"].
Proof.
  destruct (RunJs_line_feed_returns_undefined engine (Some ":1.42") (Some "/client")
              shell engine_sums eq_refl) as (_ & _ & _ & H1 & H2).
  split; [exact H1 | exact H2].
Defined.

(** C2 at [RunJs("1+1")] without a caller (the two fields undefined, or
    empty as they come over the bus): the result does not reach the local
    output.  Inside [RunJs] the name [print] is the closure
    [dbus('Print')], so the result is sent as a [Print] bus call with no
    destination, and the global [print] is never called.  [RunPromise], in
    the same situation, prints the result locally. *)
Theorem RunJs_local_result_goes_to_bus :
  trace (exec (RunJs engine "1+1" None None) shell) =
    [BusCall None None None "Print" "2"] /\
  trace (exec (RunJs engine "1+1" (Some EmptyString) (Some EmptyString)) shell) =
    [BusCall (Some EmptyString) (Some EmptyString) (Some EmptyString) "Print" "2"] /\
  count is_print (trace (exec (RunJs engine "1+1" None None) shell)) = 0%nat /\
  trace (exec (RunPromise promise_engine "resolve(1+1)" None None) shell) =
    [ConsoleWarn ("--run-promise is DEPRECATED, " +:+
                  " use --run-js instead, which now supports await syntax");
     Print "2"].
Proof. vm_compute. repeat split. Qed.

(** * Further properties *)

(** ** Adding and removing windows *)

Lemma addWindow_fresh (st : App) (w : ref) (win : Window) :
  heap st !! w = Some win -> w_name win <> EmptyString ->
  _windows st !! w_name win = None ->
  addWindow (Obj w) st =
    (Ret tt,
     set_windows (<[w_name win := w]> (_windows st))
       (set_heap (<[w := mkWindow (w_name win) (w_visible win) (S (w_notify win))]>
                    (heap st)) st)).
Proof.
  intros Hw Hname Hfree. rewrite (addWindow_named st w win Hw Hname). cbn zeta.
  now rewrite Hfree.
Qed.

Lemma destroy_frame (w : ref) (st : App) :
  _windows (destroy w st) = _windows st /\ timers (destroy w st) = timers st /\
  _closeDelay (destroy w st) = _closeDelay st.
Proof.
  unfold destroy, set_visible.
  destruct (heap st !! w) as [win|]; [|now repeat split].
  destruct (Bool.eqb (w_visible win) false); now repeat split.
Qed.

(** What [destroy] adds to the trace: one [window-toggled] per handler of
    a window that was visible. *)
Lemma destroy_trace (w : ref) (st : App) (win : Window) :
  heap st !! w = Some win ->
  trace (destroy w st) =
    trace st ++
      (if w_visible win
       then repeat (Emit (WindowToggled (w_name win) false)) (w_notify win)
       else []).
Proof.
  intros Hw. unfold destroy, set_visible. rewrite Hw.
  destruct (w_visible win); cbn; now rewrite ?app_nil_r.
Qed.

Lemma destroy_visible_same (w : ref) (st : App) : visible (destroy w st) w = false.
Proof.
  unfold destroy. destruct (heap st !! w) as [win|] eqn:Hw.
  - now apply set_visible_same with win.
  - unfold set_visible. rewrite Hw. unfold visible. now rewrite Hw.
Qed.

Lemma destroy_other (w w' : ref) (st : App) :
  w' <> w -> heap (destroy w st) !! w' = heap st !! w'.
Proof.
  intros Hne. unfold destroy, set_visible.
  destruct (heap st !! w) as [win|]; [|reflexivity].
  destruct (Bool.eqb (w_visible win) false); [reflexivity|].
  cbn. now rewrite list_lookup_insert_ne.
Qed.

Lemma removeWindow_found (target : string + ref) (st : App) (w : ref) :
  _windows st !! removal_name target st = Some w ->
  removeWindow target st =
    ([Destroy w],
     set_windows (delete (removal_name target st) (_windows st)) (destroy w st)).
Proof.
  intros Hreg. unfold removeWindow. rewrite Hreg.
  now rewrite (proj1 (destroy_frame w st)).
Qed.

(** X1: after [addWindow] has registered a named window under a free
    name, [removeWindow], given the name or the window itself, destroys
    that window and leaves the registry as it was before the add.  Nothing
    is logged; the destroyed window is not visible afterwards, and if it
    was visible, each of its handlers, the one [addWindow] connected
    included, has emitted [window-toggled(name, false)]. *)
Theorem removeWindow_after_addWindow
    (st : App) (w : ref) (win : Window) (target : string + ref) :
  heap st !! w = Some win ->
  w_name win <> EmptyString ->
  _windows st !! w_name win = None ->
  target = inl (w_name win) \/ target = inr w ->
  let st1 := exec (addWindow (Obj w)) st in
  let st2 := snd (removeWindow target st1) in
  _windows st1 !! w_name win = Some w /\
  fst (removeWindow target st1) = [Destroy w] /\
  _windows st2 = _windows st /\
  visible st2 w = false /\
  trace st2 =
    trace st ++
      (if w_visible win
       then repeat (Emit (WindowToggled (w_name win) false)) (S (w_notify win))
       else []).
Proof.
  intros Hw Hname Hfree Htarget. unfold exec.
  rewrite (addWindow_fresh st w win Hw Hname Hfree). cbn [snd].
  set (st1 := set_windows _ _).
  assert (Hreg : _windows st1 !! w_name win = Some w)
    by (subst st1; cbn; apply lookup_insert_eq).
  assert (Hw1 : heap st1 !! w =
                  Some (mkWindow (w_name win) (w_visible win) (S (w_notify win)))).
  { subst st1. cbn. apply list_lookup_insert_eq. eapply lookup_lt_Some, Hw. }
  assert (Hn : removal_name target st1 = w_name win).
  { destruct Htarget as [-> | ->]; [reflexivity|].
    cbn [removal_name]. rewrite Hw1.
    cbn. apply String.eqb_neq in Hname. now rewrite Hname. }
  split; [exact Hreg|].
  rewrite (removeWindow_found target st1 w) by now rewrite Hn.
  rewrite Hn. cbn [fst snd].
  split; [reflexivity|]. split; [|split].
  - subst st1. cbn. rewrite delete_insert_eq. now apply delete_id.
  - apply destroy_visible_same.
  - cbn [trace set_windows]. now rewrite (destroy_trace w st1 _ Hw1).
Qed.

(** The visible bar of the shell before its load, given by reference and
    by name, and its hidden on-screen display. *)
Lemma removeWindow_after_addWindow_witness :
  let st1 := exec (addWindow (Obj 0)) fresh in
  fst (removeWindow (inr 0%nat) st1) = [Destroy 0] /\
  _windows (snd (removeWindow (inr 0%nat) st1)) = _windows fresh /\
  trace (snd (removeWindow (inr 0%nat) st1)) = [Emit (WindowToggled "bar" false)] /\
  trace (snd (removeWindow (inl "bar") st1)) = [Emit (WindowToggled "bar" false)] /\
  trace (snd (removeWindow (inl "osd") (exec (addWindow (Obj 3)) fresh))) = [].
Proof.
  destruct (removeWindow_after_addWindow fresh 0 (mkWindow "bar" true 0) (inr 0%nat)
              eq_refl ltac:(discriminate) eq_refl (or_intror eq_refl))
    as (_ & H1 & H2 & _ & H3).
  destruct (removeWindow_after_addWindow fresh 0 (mkWindow "bar" true 0) (inl "bar")
              eq_refl ltac:(discriminate) eq_refl (or_introl eq_refl))
    as (_ & _ & _ & _ & H4).
  destruct (removeWindow_after_addWindow fresh 3 (mkWindow "osd" false 0) (inl "osd")
              eq_refl ltac:(discriminate) eq_refl (or_introl eq_refl))
    as (_ & _ & _ & _ & H5).
  split; [exact H1|]. split; [exact H2|]. split; [exact H3|].
  split; [exact H4 | exact H5].
Defined.

(** X2: [removeWindow] of a registered name destroys its window and
    deletes that entry only; a second [removeWindow] of the same name finds
    nothing, destroys nothing and logs that there is no such window. *)
Theorem removeWindow_twice (st : App) (n : string) (w : ref) :
  _windows st !! n = Some w ->
  let st1 := snd (removeWindow (inl n) st) in
  fst (removeWindow (inl n) st) = [Destroy w] /\
  _windows st1 !! n = None /\
  (forall n', n' <> n -> _windows st1 !! n' = _windows st !! n') /\
  removeWindow (inl n) st1 =
    ([], log [ConsoleError (Js.VErr (Js.Error_ ("There is no window named " +:+ n)))] st1).
Proof.
  intros Hreg. rewrite (removeWindow_found (inl n) st w Hreg). cbn [removal_name].
  cbn [fst snd]. set (st1 := set_windows _ _).
  assert (Hgone : _windows st1 !! n = None) by (subst st1; cbn; apply lookup_delete_eq).
  split; [reflexivity|]. split; [exact Hgone|]. split.
  - intros n' Hne. subst st1; cbn. now apply lookup_delete_ne.
  - unfold removeWindow. cbn [removal_name]. now rewrite Hgone.
Qed.

Lemma removeWindow_twice_witness :
  fst (removeWindow (inl "bar") shell) = [Destroy 0] /\
  fst (removeWindow (inl "bar") (snd (removeWindow (inl "bar") shell))) = [].
Proof.
  destruct (removeWindow_twice shell "bar" 0 eq_refl) as (H1 & _ & _ & H2).
  split; [exact H1|]. exact (f_equal fst H2).
Defined.

(** X3: [removeWindow] given a window object goes by the object's
    name: it destroys the window registered under that name, which need not
    be the object it was given, and deletes the entry.  The registered
    window is not visible afterwards; the object passed in, when it is
    another one, is left as it was. *)
Theorem removeWindow_object_goes_by_name
    (st : App) (n : string) (w1 w2 : ref) (win2 : Window) :
  _windows st !! n = Some w1 ->
  heap st !! w2 = Some win2 ->
  w_name win2 = n ->
  n <> EmptyString ->
  let st' := snd (removeWindow (inr w2) st) in
  fst (removeWindow (inr w2) st) = [Destroy w1] /\
  _windows st' !! n = None /\
  visible st' w1 = false /\
  (w2 <> w1 -> heap st' !! w2 = Some win2).
Proof.
  intros Hreg Hw2 Hn Hne.
  assert (Hname : removal_name (inr w2) st = n).
  { cbn [removal_name]. rewrite Hw2, Hn. apply String.eqb_neq in Hne.
    now rewrite Hne. }
  rewrite (removeWindow_found (inr w2) st w1) by now rewrite Hname.
  rewrite Hname. cbn [fst snd].
  split; [reflexivity|]. split; [|split].
  - cbn. apply lookup_delete_eq.
  - apply destroy_visible_same.
  - intros Hother. cbn [heap set_windows].
    now rewrite (destroy_other w1 w2 st Hother).
Qed.

(** The visible bar is registered; a hidden window object of the same
    name is passed in.  The bar is destroyed, and hidden on the way. *)
Lemma removeWindow_object_witness :
  let st' := snd (removeWindow (inr 1%nat) bar_twice) in
  fst (removeWindow (inr 1%nat) bar_twice) = [Destroy 0] /\
  visible bar_twice 0 = true /\
  visible st' 0 = false /\
  heap st' !! 1%nat = Some (mkWindow "bar" false 0).
Proof.
  destruct (removeWindow_object_goes_by_name bar_twice "bar" 0 1
              (mkWindow "bar" false 0)
              eq_refl eq_refl eq_refl ltac:(discriminate))
    as (H1 & _ & H2 & H3).
  split; [exact H1|]. split; [reflexivity|]. split; [exact H2|].
  apply H3. discriminate.
Defined.

(** X4: [addWindow] connects its [notify::visible] handler before it
    looks for a duplicate.  A visible window rejected as a duplicate is not
    registered, yet hiding it emits [window-toggled] with the registered
    name, once per handler connected to it. *)
Theorem addWindow_duplicate_still_connects
    (st : App) (n : string) (w1 w2 : ref) (win2 : Window) :
  _windows st !! n = Some w1 ->
  w1 <> w2 ->
  heap st !! w2 = Some win2 ->
  w_name win2 = n ->
  n <> EmptyString ->
  w_visible win2 = true ->
  let st' := exec (addWindow (Obj w2)) st in
  _windows st' = _windows st /\
  heap st' !! w2 = Some (mkWindow n true (S (w_notify win2))) /\
  trace (hide w2 st') =
    trace st' ++ WidgetHide w2 ::
      repeat (Emit (WindowToggled n false)) (S (w_notify win2)).
Proof.
  intros Hreg Hne Hw2 Hn Hname Hv. unfold exec.
  rewrite (addWindow_named st w2 win2 Hw2) by congruence. cbn zeta.
  rewrite Hn, Hreg, Hv. cbn [snd]. set (st' := log _ _).
  assert (Hw2' : heap st' !! w2 = Some (mkWindow n true (S (w_notify win2)))).
  { subst st'. cbn. apply list_lookup_insert_eq. eapply lookup_lt_Some, Hw2. }
  split; [reflexivity|]. split; [exact Hw2'|].
  now rewrite (hide_trace w2 st' _ Hw2').
Qed.

Lemma addWindow_duplicate_connects_witness :
  let st := exec (addWindow (Obj 0)) (set_heap [mkWindow "bar" true 0; mkWindow "bar" true 0] two_bars) in
  let st' := exec (addWindow (Obj 1)) st in
  _windows st' !! "bar" = Some 0%nat /\
  trace (hide 1 st') = trace st' ++ [WidgetHide 1; Emit (WindowToggled "bar" false)].
Proof.
  destruct (addWindow_duplicate_still_connects
              (exec (addWindow (Obj 0))
                 (set_heap [mkWindow "bar" true 0; mkWindow "bar" true 0] two_bars))
              "bar" 0 1 (mkWindow "bar" true 0)
              eq_refl ltac:(discriminate) eq_refl eq_refl ltac:(discriminate) eq_refl)
    as (H1 & _ & H3).
  split; [exact (eq_trans (f_equal (fun m => m !! "bar") H1) eq_refl) | exact H3].
Defined.

(** ** Calls that leave the registry alone *)

Lemma keeps_registry_refl (st : App) : keeps_registry st st.
Proof. now split. Qed.

Lemma keeps_registry_trans (st1 st2 st3 : App) :
  keeps_registry st1 st2 -> keeps_registry st2 st3 -> keeps_registry st1 st3.
Proof.
  intros [Hw12 Hn12] [Hw23 Hn23]. split; [congruence|].
  intros r. now rewrite Hn23.
Qed.

Lemma log_keeps (es : list effect) (st : App) : keeps_registry st (log es st).
Proof. now split. Qed.

Lemma set_visible_keeps (w : ref) (b : bool) (st : App) :
  keeps_registry st (set_visible w b st).
Proof.
  unfold set_visible. destruct (heap st !! w) as [win|] eqn:Hw;
    [|apply keeps_registry_refl].
  destruct (Bool.eqb (w_visible win) b); [apply keeps_registry_refl|].
  split; [reflexivity|]. intros r. cbn.
  destruct (decide (w = r)) as [<-|Hne].
  - rewrite list_lookup_insert_eq by (eapply lookup_lt_Some, Hw). now rewrite Hw.
  - now rewrite list_lookup_insert_ne.
Qed.

Lemma hide_keeps (w : ref) (st : App) : keeps_registry st (hide w st).
Proof.
  unfold hide. eapply keeps_registry_trans; [apply (log_keeps [WidgetHide w])|].
  apply set_visible_keeps.
Qed.

Lemma show_keeps (w : ref) (st : App) : keeps_registry st (show w st).
Proof.
  unfold show. eapply keeps_registry_trans; [apply (log_keeps [WidgetShow w])|].
  apply set_visible_keeps.
Qed.

Lemma closeWindow_keeps (name : string) (st : App) :
  keeps_registry st (exec (closeWindow name) st).
Proof.
  unfold exec. destruct (_windows st !! name) as [w|] eqn:Hreg.
  - destruct (_closeDelay st) as [tbl|] eqn:Htbl.
    + rewrite (closeWindow_loaded st name w tbl Hreg Htbl). cbn [snd]. unfold closed.
      destruct (visible st w); [|apply keeps_registry_refl].
      destruct (truthy_delay (delay_of tbl name)); [now split|apply hide_keeps].
    + destruct (visible st w) eqn:Hv.
      * rewrite (closeWindow_before_load st name w Hreg Hv Htbl).
        apply keeps_registry_refl.
      * rewrite (closeWindow_not_visible st name w Hreg Hv). apply keeps_registry_refl.
  - unfold closeWindow, bind. rewrite (getWindow_unknown st name Hreg). apply log_keeps.
Qed.

Lemma openWindow_keeps (name : string) (st : App) :
  keeps_registry st (exec (openWindow name) st).
Proof.
  unfold exec. destruct (_windows st !! name) as [w|] eqn:Hreg.
  - rewrite (openWindow_registered st name w Hreg). apply show_keeps.
  - unfold openWindow, bind. rewrite (getWindow_unknown st name Hreg). apply log_keeps.
Qed.

Lemma toggleWindow_exec (name : string) (st : App) :
  exec (toggleWindow name) st =
    match _windows st !! name with
    | Some w => exec (if visible st w then closeWindow name else openWindow name) st
    | None =>
        log [ConsoleError (Js.VErr (Js.Error_ ("There is no window named " +:+ name)))] st
    end.
Proof.
  unfold exec, toggleWindow, bind at 1.
  destruct (_windows st !! name) as [w|] eqn:Hreg.
  - rewrite (getWindow_registered st name w Hreg). unfold bind at 1, gets.
    unfold bind. destruct (visible st w).
    + now destruct (closeWindow name st) as [[[]|e] st'].
    + now destruct (openWindow name st) as [[[]|e] st'].
  - now rewrite (getWindow_unknown st name Hreg).
Qed.

Lemma toggleWindow_keeps (name : string) (st : App) :
  keeps_registry st (exec (toggleWindow name) st).
Proof.
  rewrite toggleWindow_exec. destruct (_windows st !! name) as [w|].
  - destruct (visible st w); [apply closeWindow_keeps|apply openWindow_keeps].
  - apply log_keeps.
Qed.

(** ** Unknown names *)

(** X6: for a name that is not registered, [openWindow] and
    [closeWindow] return after logging the missing window once,
    [toggleWindow] returns the diagnostic string after the same log, and
    [ToggleWindow] logs it twice and returns [undefined] as a string; none
    of them throws or changes anything else, loaded delay table or not. *)
Theorem unknown_name_is_logged (st : App) (name : string) :
  _windows st !! name = None ->
  let complaint :=
    ConsoleError (Js.VErr (Js.Error_ ("There is no window named " +:+ name))) in
  openWindow name st = (Ret tt, log [complaint] st) /\
  closeWindow name st = (Ret tt, log [complaint] st) /\
  toggleWindow name st =
    (Ret (Some ("There is no window named " +:+ name)), log [complaint] st) /\
  ToggleWindow name st = (Ret "undefined", log [complaint; complaint] st).
Proof.
  intros Hreg. cbn zeta. repeat split.
  - unfold openWindow, bind. now rewrite (getWindow_unknown st name Hreg).
  - unfold closeWindow, bind. now rewrite (getWindow_unknown st name Hreg).
  - unfold toggleWindow, bind. now rewrite (getWindow_unknown st name Hreg).
  - unfold ToggleWindow, toggleWindow, bind.
    rewrite (getWindow_unknown st name Hreg). cbn [ret].
    rewrite getWindow_unknown by exact Hreg. now rewrite log_log.
Qed.

Lemma unknown_name_witness :
  ToggleWindow "nope" fresh =
    (Ret "undefined",
     log [ConsoleError (Js.VErr (Js.Error_ "There is no window named nope"));
          ConsoleError (Js.VErr (Js.Error_ "There is no window named nope"))] fresh) /\
  result (closeWindow "nope") fresh = Ret tt.
Proof.
  destruct (unknown_name_is_logged fresh "nope" eq_refl) as (_ & Hc & _ & Ht).
  split; [exact Ht | exact (f_equal fst Hc)].
Defined.

(** ** Opening *)

Lemma show_hidden (st : App) (w : ref) (win : Window) :
  heap st !! w = Some win -> w_visible win = false ->
  show w st =
    log (WidgetShow w :: repeat (Emit (WindowToggled (w_name win) true)) (w_notify win))
        (set_heap (<[w := mkWindow (w_name win) true (w_notify win)]> (heap st)) st).
Proof.
  intros Hw Hv. unfold show, set_visible. cbn [heap log set_trace].
  rewrite Hw, Hv. cbn [Bool.eqb]. unfold log, set_trace, set_heap. cbn.
  now rewrite <- app_assoc.
Qed.

(** X7: [openWindow] on a hidden registered window makes it visible,
    emits [window-toggled(name, true)] once per connected handler and
    leaves the timers alone; opening it again only repeats the [show] call
    and emits nothing. *)
Theorem openWindow_shows_once
    (st : App) (name : string) (w : ref) (win : Window) :
  _windows st !! name = Some w ->
  heap st !! w = Some win ->
  w_visible win = false ->
  let st1 := exec (openWindow name) st in
  let st2 := exec (openWindow name) st1 in
  result (openWindow name) st = Ret tt /\
  visible st1 w = true /\
  timers st1 = timers st /\
  trace st1 =
    trace st ++ WidgetShow w ::
      repeat (Emit (WindowToggled (w_name win) true)) (w_notify win) /\
  st2 = log [WidgetShow w] st1.
Proof.
  intros Hreg Hw Hv. unfold exec, result.
  rewrite (openWindow_registered st name w Hreg). cbn [fst snd].
  rewrite (show_hidden st w win Hw Hv).
  set (st1 := log _ _).
  assert (Hw1 : heap st1 !! w = Some (mkWindow (w_name win) true (w_notify win))).
  { subst st1. cbn. apply list_lookup_insert_eq. eapply lookup_lt_Some, Hw. }
  split; [reflexivity|]. split; [|split; [reflexivity|split; [reflexivity|]]].
  - now rewrite (visible_heap st1 w _ Hw1).
  - rewrite (openWindow_registered st1 name w) by exact Hreg. cbn [snd].
    now apply (show_visible_already st1 w _ Hw1).
Qed.

Lemma openWindow_shows_once_witness :
  let st1 := exec (openWindow "osd") shell in
  trace st1 = [WidgetShow 3; Emit (WindowToggled "osd" true)] /\
  exec (openWindow "osd") st1 = log [WidgetShow 3] st1.
Proof.
  destruct (openWindow_shows_once shell "osd" 3 (mkWindow "osd" false 1)
              eq_refl eq_refl eq_refl) as (_ & _ & _ & Htr & Hagain).
  split; [exact Htr | exact Hagain].
Defined.

(** ** Closing without a delay, and toggling back *)

(** X8: when the delay read for the name is falsy (the name maps to 0,
    or it has no entry and names no member of [Object.prototype]), closing
    is idempotent: after one [closeWindow] the window is hidden, and a
    second [closeWindow] returns without changing anything. *)
Theorem closeWindow_immediate_idempotent
    (st : App) (name : string) (w : ref) (tbl : gmap string Z) :
  _windows st !! name = Some w ->
  _closeDelay st = Some tbl ->
  truthy_delay (delay_of tbl name) = false ->
  let st1 := exec (closeWindow name) st in
  visible st1 w = false /\
  closeWindow name st1 = (Ret tt, st1).
Proof.
  intros Hreg Htbl Hd. unfold exec.
  rewrite (closeWindow_loaded st name w tbl Hreg Htbl). cbn [snd].
  assert (Hv : visible (closed name w tbl st) w = false).
  { unfold closed. destruct (visible st w) eqn:Hv; [|exact Hv].
    rewrite Hd. apply hide_visible_same. }
  split; [exact Hv|].
  apply closeWindow_not_visible with w; [|exact Hv].
  now rewrite closed_windows.
Qed.

Lemma closeWindow_immediate_idempotent_witness :
  let st1 := exec (closeWindow "dock") shell in
  visible st1 2 = false /\ closeWindow "dock" st1 = (Ret tt, st1).
Proof.
  exact (closeWindow_immediate_idempotent shell "dock" 2 shell_delays
           eq_refl eq_refl eq_refl).
Defined.

Lemma window_eta (win : Window) :
  mkWindow (w_name win) (w_visible win) (w_notify win) = win.
Proof. now destruct win. Qed.

Lemma toggleWindow_hides (st : App) (name : string) (w : ref) (tbl : gmap string Z) :
  _windows st !! name = Some w -> visible st w = true ->
  _closeDelay st = Some tbl -> truthy_delay (delay_of tbl name) = false ->
  exec (toggleWindow name) st = hide w st.
Proof.
  intros Hreg Hv Htbl Hd. rewrite toggleWindow_exec, Hreg, Hv. unfold exec.
  now rewrite (closeWindow_immediate st name w Hreg tbl Hv Htbl Hd).
Qed.

Lemma toggleWindow_shows (st : App) (name : string) (w : ref) :
  _windows st !! name = Some w -> visible st w = false ->
  exec (toggleWindow name) st = show w st.
Proof.
  intros Hreg Hv. rewrite toggleWindow_exec, Hreg, Hv. unfold exec.
  now rewrite (openWindow_registered st name w Hreg).
Qed.

Lemma heap_set_visible (w : ref) (b : bool) (st : App) (win : Window) :
  heap st !! w = Some win ->
  heap (set_visible w b st) = <[w := mkWindow (w_name win) b (w_notify win)]> (heap st).
Proof.
  intros Hw. unfold set_visible. rewrite Hw.
  destruct (Bool.eqb_spec (w_visible win) b) as [<-|Hne]; [|reflexivity].
  cbn [heap]. symmetry. apply list_insert_id.
  transitivity (Some win); [exact Hw|]. f_equal. symmetry. apply window_eta.
Qed.

(** X9: when the delay read for the name is falsy (the name maps to 0,
    or it has no entry and names no member of [Object.prototype]),
    [toggleWindow] flips the visibility of a registered window and a second
    [toggleWindow] brings it back: the windows, the timers and the registry
    are as before. *)
Theorem toggleWindow_twice_restores
    (st : App) (name : string) (w : ref) (win : Window) (tbl : gmap string Z) :
  _windows st !! name = Some w ->
  heap st !! w = Some win ->
  _closeDelay st = Some tbl ->
  truthy_delay (delay_of tbl name) = false ->
  let st1 := exec (toggleWindow name) st in
  let st2 := exec (toggleWindow name) st1 in
  visible st1 w = negb (w_visible win) /\
  visible st2 w = w_visible win /\
  heap st2 = heap st /\
  timers st2 = timers st /\
  _windows st2 = _windows st.
Proof.
  intros Hreg Hw Htbl Hd. cbn zeta.
  pose proof (toggleWindow_keeps name st) as [Hreg1 _].
  pose proof (toggleWindow_keeps name (exec (toggleWindow name) st)) as [Hreg2 _].
  assert (Hlive : forall b st0, heap st0 !! w = Some win ->
            heap (set_visible w b st0) !! w = Some (mkWindow (w_name win) b (w_notify win))).
  { intros b st0 Hw0. rewrite (heap_set_visible w b st0 win Hw0).
    apply list_lookup_insert_eq. eapply lookup_lt_Some, Hw0. }
  destruct (w_visible win) eqn:Hv; cbn [negb].
  - assert (H1 : exec (toggleWindow name) st = hide w st)
      by (apply toggleWindow_hides with tbl; try assumption;
          now rewrite (visible_heap st w win Hw)).
    rewrite H1 in *.
    assert (Hv1 : visible (hide w st) w = false) by apply hide_visible_same.
    assert (H2 : exec (toggleWindow name) (hide w st) = show w (hide w st))
      by (apply toggleWindow_shows; [now rewrite Hreg1|exact Hv1]).
    rewrite H2 in *.
    assert (Hw1 : heap (hide w st) !! w = Some (mkWindow (w_name win) false (w_notify win)))
      by (apply (Hlive false (log [WidgetHide w] st)); exact Hw).
    split; [exact Hv1|]. split; [now apply show_visible_same with (win := mkWindow (w_name win) false (w_notify win))|].
    split; [|split].
    + unfold show. erewrite heap_set_visible by (cbn [heap log set_trace]; exact Hw1).
      cbn [heap log set_trace w_name w_notify]. unfold hide.
      rewrite (heap_set_visible w false (log [WidgetHide w] st) win Hw).
      cbn [heap log set_trace]. rewrite list_insert_insert_eq.
      apply list_insert_id. transitivity (Some win); [exact Hw|]. f_equal.
      rewrite <- Hv. symmetry. apply window_eta.
    + unfold show, set_visible. cbn [heap log set_trace]. rewrite Hw1. cbn.
      apply hide_frame.
    + congruence.
  - assert (Hv0 : visible st w = false) by now rewrite (visible_heap st w win Hw).
    assert (H1 : exec (toggleWindow name) st = show w st)
      by now apply toggleWindow_shows.
    rewrite H1 in *.
    assert (Hw1 : heap (show w st) !! w = Some (mkWindow (w_name win) true (w_notify win)))
      by (apply (Hlive true (log [WidgetShow w] st)); exact Hw).
    assert (Hv1 : visible (show w st) w = true) by now rewrite (visible_heap _ w _ Hw1).
    assert (Htbl1 : _closeDelay (show w st) = Some tbl).
    { unfold show, set_visible. cbn [heap log set_trace]. rewrite Hw, Hv. exact Htbl. }
    assert (H2 : exec (toggleWindow name) (show w st) = hide w (show w st))
      by (apply toggleWindow_hides with tbl; try assumption; now rewrite Hreg1).
    rewrite H2 in *.
    split; [exact Hv1|]. split; [apply hide_visible_same|].
    split; [|split].
    + unfold hide. erewrite heap_set_visible by (cbn [heap log set_trace]; exact Hw1).
      cbn [heap log set_trace w_name w_notify]. unfold show.
      rewrite (heap_set_visible w true (log [WidgetShow w] st) win Hw).
      cbn [heap log set_trace]. rewrite list_insert_insert_eq.
      apply list_insert_id. transitivity (Some win); [exact Hw|]. f_equal.
      rewrite <- Hv. symmetry. apply window_eta.
    + rewrite (proj1 (hide_frame w (show w st))).
      unfold show, set_visible. cbn [heap log set_trace]. now rewrite Hw, Hv.
    + congruence.
Qed.

Lemma toggleWindow_twice_witness :
  heap (exec (toggleWindow "menu") (exec (toggleWindow "menu") shell)) = heap shell /\
  visible (exec (toggleWindow "menu") shell) 1 = false.
Proof.
  destruct (toggleWindow_twice_restores shell "menu" 1 (mkWindow "menu" true 1)
              shell_delays eq_refl eq_refl eq_refl eq_refl) as (Hv & _ & Hh & _).
  split; [exact Hh | exact Hv].
Defined.

(** ** Before the configuration is loaded *)

(** X10: before [_load] has set the delay table, [closeWindow],
    [toggleWindow] and [ToggleWindow] on a visible registered window throw
    a [TypeError] and change nothing; on a hidden one [closeWindow] returns
    and [toggleWindow] shows the window. *)
Theorem close_before_load_throws (st : App) (name : string) (w : ref) :
  _windows st !! name = Some w ->
  _closeDelay st = None ->
  let oops := Js.mkError "TypeError" "this._closeDelay is undefined" in
  (visible st w = true ->
   closeWindow name st = (Throw oops, st) /\
   toggleWindow name st = (Throw oops, st) /\
   ToggleWindow name st = (Throw oops, st)) /\
  (visible st w = false ->
   closeWindow name st = (Ret tt, st) /\
   toggleWindow name st = (Ret None, show w st)).
Proof.
  intros Hreg Htbl. cbn zeta. split; intros Hv.
  - pose proof (closeWindow_before_load st name w Hreg Hv Htbl) as Hc.
    assert (Ht : toggleWindow name st =
                 (Throw (Js.mkError "TypeError" "this._closeDelay is undefined"), st)).
    { unfold toggleWindow, bind at 1. rewrite (getWindow_registered st name w Hreg).
      unfold bind at 1, gets. rewrite Hv. unfold bind. now rewrite Hc. }
    split; [exact Hc|]. split; [exact Ht|].
    unfold ToggleWindow, bind. now rewrite Ht.
  - split; [now apply closeWindow_not_visible with w|].
    unfold toggleWindow, bind at 1. rewrite (getWindow_registered st name w Hreg).
    unfold bind at 1, gets. rewrite Hv. unfold bind.
    now rewrite (openWindow_registered st name w Hreg).
Qed.

Lemma close_before_load_witness :
  let st := exec (addWindow (Obj 0)) fresh in
  ToggleWindow "bar" st =
    (Throw (Js.mkError "TypeError" "this._closeDelay is undefined"), st).
Proof.
  exact (proj2 (proj2 (proj1 (close_before_load_throws (exec (addWindow (Obj 0)) fresh)
                                "bar" 0 eq_refl eq_refl) eq_refl))).
Defined.

(** ** The two events of a delayed close *)

Lemma run_queue_enqueue_alone (t : Z) (s : source) (q : list source) (st : App) :
  take_due t q = [] -> due s <= t ->
  run_queue t (enqueue s q) st = dispatch s (set_timers q (next_source st) st).
Proof.
  intros Hq Hs. destruct q as [|x q]; cbn.
  - destruct (Z.leb_spec (due s) t); [reflexivity|lia].
  - cbn in Hq. destruct (Z.leb_spec (due x) t) as [Hx|Hx]; [discriminate|].
    destruct (Z.leb_spec (due x) (due s)); [lia|]. cbn.
    destruct (Z.leb_spec (due s) t); [|lia].
    destruct (Z.leb_spec (due x) t); [lia|reflexivity].
Qed.

(** X11: a delayed close of a window registered under its own name
    emits [window-toggled(name, false)] at the request and again, once per
    connected handler, when the timer hides the window: with nothing else
    due, the trace up to the hide is the request's event, the [hide] call
    and the handlers' events. *)
Theorem delayed_close_emits_twice
    (st : App) (name : string) (w : ref) (win : Window)
    (tbl : gmap string Z) (d t : Z) :
  _windows st !! name = Some w ->
  heap st !! w = Some win ->
  w_name win = name ->
  w_visible win = true ->
  _closeDelay st = Some tbl ->
  tbl !! name = Some d ->
  0 < d ->
  take_due t (timers st) = [] ->
  now st + d <= t ->
  trace (run_until t (exec (closeWindow name) st)) =
    trace st ++ Emit (WindowToggled name false) :: WidgetHide w ::
      repeat (Emit (WindowToggled name false)) (w_notify win).
Proof.
  intros Hreg Hw Hname Hv Htbl Hd Hpos Hnone Ht. unfold exec.
  rewrite (closeWindow_scheduled st name w Hreg tbl d) by
    (try assumption; try lia; now rewrite (visible_heap st w win Hw)).
  cbn [snd]. rewrite run_until_trace. cbn [timers log set_trace set_timers].
  rewrite run_queue_enqueue_alone by (try assumption; cbn; lia).
  unfold dispatch. cbn [action].
  erewrite hide_trace by (cbn; exact Hw). rewrite Hv, Hname. cbn.
  now rewrite <- app_assoc.
Qed.

Lemma delayed_close_emits_twice_witness :
  trace (run_until 300 (exec (closeWindow "bar") shell)) =
    [Emit (WindowToggled "bar" false); WidgetHide 0; Emit (WindowToggled "bar" false)].
Proof.
  exact (delayed_close_emits_twice shell "bar" 0 (mkWindow "bar" true 1) shell_delays
           300 300 eq_refl eq_refl eq_refl eq_refl eq_refl eq_refl
           ltac:(lia) eq_refl ltac:(cbn; lia)).
Defined.

(** ** The loader, on configurations that load *)

Lemma name_of_live (st : App) (w : ref) :
  name_of st w <> EmptyString ->
  exists win, heap st !! w = Some win /\ w_name win = name_of st w.
Proof.
  unfold name_of. destruct (heap st !! w) as [win|]; [eauto|congruence].
Qed.

Lemma forEach_addWindow_fresh (names : ref -> string) (ws : list ref) (st : App) :
  (forall r, name_of st r = names r) ->
  Forall (fun w => names w <> EmptyString /\ _windows st !! names w = None) ws ->
  NoDup (names <$> ws) ->
  exists st',
    forEach addWindow (Obj <$> ws) st = (Ret tt, st') /\
    trace st' = trace st /\
    _closeDelay st' = _closeDelay st /\
    timers st' = timers st /\
    (forall w, w ∈ ws -> _windows st' !! names w = Some w) /\
    (forall n, n ∉ names <$> ws -> _windows st' !! n = _windows st !! n).
Proof.
  revert st. induction ws as [|w ws IH]; intros st Hnames Hall Hnd.
  - exists st. cbn. repeat split; try reflexivity. now intros w ?%elem_of_nil.
  - apply Forall_cons in Hall as [[Hne Hfree] Hall].
    cbn in Hnd. apply NoDup_cons in Hnd as [Hnotin Hnd].
    rewrite <- (Hnames w) in Hne, Hfree.
    destruct (name_of_live st w Hne) as (win & Hw & Hname).
    rewrite <- Hname in Hne, Hfree.
    pose proof (addWindow_fresh st w win Hw Hne Hfree) as Hadd.
    set (st1 := set_windows _ _) in Hadd.
    assert (Hnames1 : forall r, name_of st1 r = names r).
    { intros r. rewrite <- Hnames. unfold name_of. subst st1. cbn.
      destruct (decide (w = r)) as [<-|Hd].
      - rewrite list_lookup_insert_eq by (eapply lookup_lt_Some, Hw). now rewrite Hw.
      - now rewrite list_lookup_insert_ne. }
    assert (Hwn : w_name win = names w) by (rewrite Hname; apply Hnames).
    assert (Hall1 : Forall (fun w0 => names w0 <> EmptyString /\
                                      _windows st1 !! names w0 = None) ws).
    { rewrite Forall_forall in Hall. apply Forall_forall. intros w0 Hw0.
      destruct (Hall w0 Hw0) as [Hn0 Hf0]. split; [exact Hn0|].
      subst st1. cbn. rewrite lookup_insert_ne; [exact Hf0|].
      rewrite Hwn. intros Heq. apply Hnotin. rewrite Heq.
      now apply list_elem_of_fmap_2. }
    destruct (IH st1 Hnames1 Hall1 Hnd) as (st' & Hrun & Htr & Hcd & Htm & Hin & Hout).
    exists st'. cbn [fmap list_fmap forEach]. unfold bind. rewrite Hadd.
    split; [exact Hrun|]. split; [exact Htr|]. split; [exact Hcd|]. split; [exact Htm|].
    split.
    + intros w0 [->|Hw0]%elem_of_cons; [|now apply Hin].
      rewrite (Hout (names w) Hnotin). subst st1. cbn. rewrite <- Hwn.
      apply lookup_insert_eq.
    + intros n Hn. cbn [fmap list_fmap] in Hn.
      apply not_elem_of_cons in Hn as [Hn1 Hn2].
      rewrite (Hout n Hn2). subst st1. cbn. apply lookup_insert_ne. congruence.
Qed.

Lemma count_deprecated (p : effect -> bool) (config : Config) :
  (forall msg, p (ConsoleWarn msg) = false) -> count p (deprecated config) = 0%nat.
Proof.
  intros Hp. unfold deprecated, warning. rewrite !count_app.
  repeat match goal with |- context [if ?b then _ else _] => destruct b end;
    cbn; rewrite ?Hp; reflexivity.
Qed.

Section LoaderSuccess.
Variable screen : bool.
Variable load_from_path : string -> option Js.Error.
Variable import_ : string -> outcome (option Config).

(** The statements of [_load] before the windows are added leave the
    registry, the heap and the timers alone, and emit neither
    [config-parsed] nor [quit], as long as the style sheet loads. *)
Lemma applyCss_loads (path : string) (st : App) :
  (screen = true -> load_from_path path = None) ->
  exists es,
    applyCss screen load_from_path path st =
      (Ret tt, log es (set_cssProviders
                         (_cssProviders st ++ if screen then [path] else []) st)) /\
    count is_config_parsed es = 0%nat /\ count is_quit es = 0%nat.
Proof.
  intros Hcss. unfold applyCss. destruct screen; cbn [negb].
  - rewrite (Hcss eq_refl). exists [CssProvider path]. now repeat split.
  - exists [ConsoleError (Js.VStr "couldn't get screen")]. repeat split.
    unfold act, log, set_trace, set_cssProviders. cbn. rewrite app_nil_r.
    now destruct st.
Qed.

(** X12: when the configuration declares live windows with
    non-empty, pairwise distinct names that are not registered yet, has no
    [onConfigParsed] callback and its style sheet (if any, and if there is
    a screen) loads, [_load] returns having registered every window under
    its name and no other name, set the delay table to the configured one
    (empty when absent), never called [quit], and emitted [config-parsed]
    exactly once, as the last thing it did. *)
Theorem _load_registers_windows (st : App) (config : Config) (ws : list ref) :
  import_ ("file://" +:+ _configPath st) = Ret (Some config) ->
  windows config = Some (Obj <$> ws) ->
  onConfigParsed config = None ->
  (screen = true -> Js.truthy_str (style config) = true ->
   load_from_path (resolve (_configDir st) (default EmptyString (style config))) = None) ->
  Forall (fun w => name_of st w <> EmptyString /\ _windows st !! name_of st w = None) ws ->
  NoDup (name_of st <$> ws) ->
  let st' := exec (_load screen load_from_path import_) st in
  result (_load screen load_from_path import_) st = Ret tt /\
  (forall w, w ∈ ws -> _windows st' !! name_of st w = Some w) /\
  (forall n, n ∉ name_of st <$> ws -> _windows st' !! n = _windows st !! n) /\
  _closeDelay st' = Some (default ∅ (closeWindowDelay config)) /\
  count is_config_parsed (trace st') = S (count is_config_parsed (trace st)) /\
  count is_quit (trace st') = count is_quit (trace st) /\
  last (trace st') = Some (Emit ConfigParsed).
Proof.
  intros Himp Hws Hcb Hcss Hall Hnd.
  (* the state reached before the windows are added *)
  assert (Hpre : exists es st0,
            count is_config_parsed es = 0%nat /\ count is_quit es = 0%nat /\
            trace st0 = trace st ++ es /\
            heap st0 = heap st /\ _windows st0 = _windows st /\
            _closeDelay st0 = Some (default ∅ (closeWindowDelay config)) /\
            _load screen load_from_path import_ st =
                try_catch
                  (fun s => (match windows config with
                             | Some ws0 => forEach addWindow ws0
                             | None => ret tt
                             end ;;
                             match onConfigParsed config with
                             | Some f => f
                             | None => ret tt
                             end ;; emit ConfigParsed) st0)
                  (fun err =>
                     act (log [LogError (Js.VErr err)]) ;;
                     configPath <- gets _configPath ;;
                     if entry_not_found configPath err
                     then
                       act (log [Print ("config file not found: " +:+ Js.dquote +:+
                                        configPath +:+ Js.dquote)]) ;;
                       quit
                     else ret tt) st).
  { assert (Hstyle : exists es1 st1,
              (if Js.truthy_str (style config)
               then configDir <- gets _configDir ;;
                    applyCss screen load_from_path
                      (resolve configDir (default EmptyString (style config)))
               else ret tt)
                (set_closeDelay (Some (default ∅ (closeWindowDelay config)))
                   (log (deprecated config) st)) = (Ret tt, st1) /\
              count is_config_parsed es1 = 0%nat /\ count is_quit es1 = 0%nat /\
              trace st1 = trace st ++ deprecated config ++ es1 /\
              heap st1 = heap st /\ _windows st1 = _windows st /\
              _configDir st1 = _configDir st /\
              _closeDelay st1 = Some (default ∅ (closeWindowDelay config))).
    { destruct (Js.truthy_str (style config)) eqn:Hs.
      - unfold bind, gets. cbn [_configDir set_closeDelay log set_trace].
        destruct (applyCss_loads
                    (resolve (_configDir st) (default EmptyString (style config)))
                    (set_closeDelay (Some (default ∅ (closeWindowDelay config)))
                       (log (deprecated config) st)))
          as (es & Hrun & Hc1 & Hc2); [intros Hsc; now apply Hcss|].
        rewrite Hrun. exists es. eexists. split; [reflexivity|].
        split; [exact Hc1|]. split; [exact Hc2|].
        split; [cbn; now rewrite <- app_assoc|]. now repeat split.
      - exists []. eexists. split; [reflexivity|].
        split; [reflexivity|]. split; [reflexivity|].
        split; [cbn; now rewrite app_nil_r|]. now repeat split. }
    destruct Hstyle as (es1 & st1 & Hrun1 & Hc1 & Hq1 & Htr1 & Hh1 & Hw1 & Hd1 & Hcd1).
    set (es2 := if Js.truthy_str (icons config)
                then [IconSearchPath (resolve (_configDir st)
                                        (default EmptyString (icons config)))]
                else []).
    set (es3 := if onWindowToggled config then [Connect "window-toggled"] else []).
    exists (deprecated config ++ es1 ++ es2 ++ es3), (log (es2 ++ es3) st1).
    split; [|split; [|split; [|split; [|split; [|split]]]]].
    - rewrite !count_app, count_deprecated, Hc1 by reflexivity.
      subst es2 es3. destruct (Js.truthy_str (icons config)), (onWindowToggled config);
        reflexivity.
    - rewrite !count_app, count_deprecated, Hq1 by reflexivity.
      subst es2 es3. destruct (Js.truthy_str (icons config)), (onWindowToggled config);
        reflexivity.
    - cbn. rewrite Htr1. now rewrite <- !app_assoc.
    - exact Hh1.
    - exact Hw1.
    - exact Hcd1.
    - unfold _load, try_catch. f_equal.
      unfold bind at 1, gets at 1. unfold bind at 1. rewrite Himp.
      unfold bind at 1, act at 1. unfold bind at 1, act at 1.
      unfold bind at 1. rewrite Hrun1.
      unfold bind at 1.
      assert (Hicons : (if Js.truthy_str (icons config)
                        then configDir <- gets _configDir ;;
                             act (log [IconSearchPath
                                         (resolve configDir
                                            (default EmptyString (icons config)))])
                        else ret tt) st1 = (Ret tt, log es2 st1)).
      { subst es2. destruct (Js.truthy_str (icons config)).
        - unfold bind, gets, act. now rewrite Hd1.
        - unfold ret, log, set_trace. rewrite app_nil_r. now destruct st1. }
      rewrite Hicons. unfold bind at 1.
      assert (Hconn : (if onWindowToggled config
                       then act (log [Connect "window-toggled"])
                       else ret tt) (log es2 st1) = (Ret tt, log (es2 ++ es3) st1)).
      { subst es3. destruct (onWindowToggled config).
        - unfold act. now rewrite log_log.
        - unfold ret. now rewrite app_nil_r. }
      now rewrite Hconn. }
  destruct Hpre as (es & st0 & Hc & Hq & Htr0 & Hh0 & Hw0 & Hcd0 & Hload).
  assert (Hnames0 : forall r, name_of st0 r = name_of st r)
    by (intros r; unfold name_of; now rewrite Hh0).
  assert (Hall0 : Forall (fun w => name_of st w <> EmptyString /\
                                   _windows st0 !! name_of st w = None) ws)
    by now rewrite Hw0.
  destruct (forEach_addWindow_fresh (name_of st) ws st0 Hnames0 Hall0 Hnd)
    as (st1 & Hrun & Htr1 & Hcd1 & _ & Hin & Hout).
  assert (Hfinal : _load screen load_from_path import_ st =
                   (Ret tt, log [Emit ConfigParsed] st1)).
  { rewrite Hload. unfold try_catch. rewrite Hws, Hcb. unfold bind at 1.
    rewrite Hrun. reflexivity. }
  unfold exec, result. rewrite Hfinal. cbn [fst snd trace log set_trace _windows _closeDelay].
  split; [reflexivity|]. split; [exact Hin|]. split.
  - intros n Hn. rewrite (Hout n Hn). now rewrite Hw0.
  - split; [congruence|]. rewrite Htr1, Htr0, !count_app, Hc, Hq. cbn.
    split; [lia|]. split; [lia|]. apply last_snoc.
Qed.

End LoaderSuccess.

Lemma _load_registers_windows_witness :
  let st' := exec (_load false css_ok
                     (import_config (windows_config [Obj 0; Obj 1; Obj 2; Obj 3]
                                       shell_delays))) fresh in
  _windows st' !! "bar" = Some 0%nat /\
  _closeDelay st' = Some shell_delays /\
  last (trace st') = Some (Emit ConfigParsed).
Proof.
  destruct (_load_registers_windows false css_ok
              (import_config (windows_config [Obj 0; Obj 1; Obj 2; Obj 3] shell_delays))
              fresh (windows_config [Obj 0; Obj 1; Obj 2; Obj 3] shell_delays)
              [0; 1; 2; 3]%nat eq_refl eq_refl eq_refl ltac:(discriminate))
    as (_ & Hin & _ & Hcd & _ & _ & Hlast).
  - repeat constructor; discriminate.
  - cbn. repeat constructor; rewrite ?elem_of_cons, ?elem_of_nil;
      intros H; repeat destruct H as [H|H]; discriminate || exact H.
  - split; [exact (Hin 0%nat ltac:(left))|]. split; [exact Hcd | exact Hlast].
Defined.

(** ** The loader, on what goes wrong *)

Section LoaderErrors.
Variable screen : bool.
Variable load_from_path : string -> option Js.Error.
Variable import_ : string -> outcome (option Config).

Lemma _load_style_throws (st : App) (config : Config) (e : Js.Error) :
  import_ ("file://" +:+ _configPath st) = Ret (Some config) ->
  Js.truthy_str (style config) = true ->
  screen = true ->
  load_from_path (resolve (_configDir st) (default EmptyString (style config))) = Some e ->
  entry_not_found (_configPath st) e = false ->
  _load screen load_from_path import_ st =
    (Ret tt,
     log (deprecated config ++ [LogError (Js.VErr e)])
         (set_closeDelay (Some (default ∅ (closeWindowDelay config))) st)).
Proof.
  intros Himp Hs Hsc Hcss Hnf. unfold _load, try_catch.
  unfold bind at 1, gets at 1. unfold bind at 1. rewrite Himp.
  unfold bind at 1, act at 1. unfold bind at 1, act at 1.
  unfold bind at 1. rewrite Hs. unfold bind at 1, gets at 1.
  cbn [_configDir set_closeDelay log set_trace]. unfold applyCss. rewrite Hsc.
  cbn [negb]. rewrite Hcss. unfold throw. cbn [snd].
  unfold bind, act, gets. cbn [_configPath log set_trace set_closeDelay].
  rewrite Hnf. cbn. unfold log, set_trace, set_closeDelay. cbn.
  now rewrite <- app_assoc.
Qed.

(** X14: when the style sheet of the configuration fails to load,
    [_load] stops there and the last thing it does is log the error: the
    delay table is set, but the registry is as it was, no [config-parsed]
    is emitted and [quit] is not called. *)
Theorem _load_style_failure (st : App) (config : Config) (e : Js.Error) :
  import_ ("file://" +:+ _configPath st) = Ret (Some config) ->
  Js.truthy_str (style config) = true ->
  screen = true ->
  load_from_path (resolve (_configDir st) (default EmptyString (style config))) = Some e ->
  entry_not_found (_configPath st) e = false ->
  let st' := exec (_load screen load_from_path import_) st in
  result (_load screen load_from_path import_) st = Ret tt /\
  _windows st' = _windows st /\
  _closeDelay st' = Some (default ∅ (closeWindowDelay config)) /\
  last (trace st') = Some (LogError (Js.VErr e)) /\
  count is_config_parsed (trace st') = count is_config_parsed (trace st) /\
  count is_quit (trace st') = count is_quit (trace st).
Proof.
  intros Himp Hs Hsc Hcss Hnf. unfold exec, result.
  rewrite (_load_style_throws st config e Himp Hs Hsc Hcss Hnf). cbn [fst snd].
  split; [reflexivity|]. split; [reflexivity|]. split; [reflexivity|].
  cbn [trace log set_trace set_closeDelay]. split; [|split].
  - rewrite app_assoc. apply last_snoc.
  - rewrite !count_app, count_deprecated by reflexivity. cbn. lia.
  - rewrite !count_app, count_deprecated by reflexivity. cbn. lia.
Qed.

End LoaderErrors.

(** A configuration with two windows whose style sheet cannot be read. *)
Lemma _load_style_failure_witness :
  let st' := exec (_load true css_broken
                     (import_config (styled_config "./style.css" [Obj 0; Obj 1]))) fresh in
  _windows st' = ∅ /\
  last (trace st') =
    Some (LogError (Js.VErr (Js.mkError "GLib.Error"
            "Failed to import: /home/user/.config/ags/style.css"))) /\
  _closeDelay st' = Some ∅.
Proof.
  destruct (_load_style_failure true css_broken
                (import_config (styled_config "./style.css" [Obj 0; Obj 1])) fresh
                (styled_config "./style.css" [Obj 0; Obj 1])
                (Js.mkError "GLib.Error" "Failed to import: /home/user/.config/ags/style.css")
                eq_refl eq_refl eq_refl eq_refl eq_refl) as (_ & Hw & Hd & Hl & _).
  split; [exact Hw|]. split; [exact Hl | exact Hd].
Defined.

(** ** Style sheets *)

Lemma forEach_applyCss (load_from_path : string -> option Js.Error)
    (ps : list string) (st : App) :
  Forall (fun p => load_from_path p = None) ps ->
  forEach (applyCss true load_from_path) ps st =
    (Ret tt, log (CssProvider <$> ps) (set_cssProviders (_cssProviders st ++ ps) st)).
Proof.
  revert st. induction ps as [|p ps IH]; intros st Hall.
  - cbn. unfold ret, log, set_trace, set_cssProviders. rewrite !app_nil_r.
    now destruct st.
  - apply Forall_cons in Hall as [Hp Hall]. cbn [forEach]. unfold bind at 1.
    unfold applyCss at 1. cbn [negb]. rewrite Hp. unfold bind at 1, act at 1 2.
    rewrite (IH _ Hall). unfold log, set_trace, set_cssProviders. cbn.
    now rewrite <- !app_assoc.
Qed.

(** X15: with a screen, [resetCss] after any number of successful
    [applyCss] calls removes every provider, in the order they were
    applied, and empties the list; a second [resetCss] removes nothing. *)
Theorem resetCss_removes_every_provider
    (load_from_path : string -> option Js.Error) (ps : list string) (st : App) :
  Forall (fun p => load_from_path p = None) ps ->
  let st1 := exec (forEach (applyCss true load_from_path) ps) st in
  _cssProviders st1 = _cssProviders st ++ ps /\
  fst (resetCss true st1) = RemoveProvider <$> (_cssProviders st ++ ps) /\
  _cssProviders (snd (resetCss true st1)) = [] /\
  trace (snd (resetCss true st1)) = trace st ++ (CssProvider <$> ps) /\
  resetCss true (snd (resetCss true st1)) = ([], snd (resetCss true st1)).
Proof.
  intros Hall. unfold exec. rewrite (forEach_applyCss load_from_path ps st Hall).
  cbn [snd]. unfold resetCss. cbn. repeat split.
Qed.

Lemma resetCss_witness :
  let st1 := exec (forEach (applyCss true css_ok) ["/a.css"; "/b.css"]) shell in
  fst (resetCss true st1) = [RemoveProvider "/a.css"; RemoveProvider "/b.css"] /\
  _cssProviders (snd (resetCss true st1)) = [].
Proof.
  destruct (resetCss_removes_every_provider css_ok ["/a.css"; "/b.css"] shell
              ltac:(repeat constructor)) as (_ & H1 & H2 & _).
  split; [exact H1 | exact H2].
Defined.

(** ** Replies of the bridge *)

Lemma count_return_prints (bus path : option string) (l : list Js.value) :
  count is_return ((fun v => bus_call bus path "Print" v) <$> l) = 0%nat.
Proof. induction l as [|v l IH]; cbn; [reflexivity|exact IH]. Qed.

Section Replies.
Variable Function_ : string -> Js.Error + script.


(** X16: one call of [RunJs] makes at most one [Return] call:
    exactly one when there is a caller and the text fails to compile or
    the promise settles, none when there is no caller or the promise never
    settles.  What the script prints never counts as a reply. *)
Theorem RunJs_replies_at_most_once (js : string) (bus path : option string) (st : App) :
  count is_return (trace (exec (RunJs Function_ js bus path) st)) =
    (count is_return (trace st) +
     if client bus path && answered (Function_ (script_source js)) then 1 else 0)%nat.
Proof.
  unfold exec, answered. destruct (Function_ (script_source js)) as [e|fn] eqn:Hc.
  - rewrite (RunJs_compile_error Function_ js bus path st e Hc).
    cbn [snd trace log set_trace]. rewrite count_app.
    destruct (client bus path); cbn; lia.
  - rewrite (RunJs_compiled Function_ js bus path st fn Hc).
    cbn [snd trace log set_trace]. rewrite !count_app, !count_return_prints.
    destruct (settled fn) as [out|err|]; destruct (client bus path); cbn; lia.
Qed.

End Replies.

(** ** Compile failures and sums *)

Section Failures.
Variable Function_ : string -> Js.Error + script.

(** X24: when the text does not compile, reporting the error is all
    [RunJs] does: one [Return] call carrying the error as a string when
    there is a caller, one [logError] of the error otherwise; the method
    returns, and registry, windows and timers are as before. *)
Theorem RunJs_compile_failure_is_reported
    (js : string) (bus path : option string) (st : App) (e : Js.Error) :
  Function_ (script_source js) = inl e ->
  let st' := exec (RunJs Function_ js bus path) st in
  result (RunJs Function_ js bus path) st = Ret tt /\
  trace st' =
    trace st ++
      [if client bus path
       then BusCall bus path bus "Return" (Js.error_to_string e)
       else LogError (Js.VErr e)] /\
  _windows st' = _windows st /\
  heap st' = heap st /\
  timers st' = timers st.
Proof.
  intros Hc. unfold exec, result.
  rewrite (RunJs_compile_error Function_ js bus path st e Hc). cbn [fst snd].
  split; [reflexivity|]. split; [|now repeat split].
  cbn [trace log set_trace]. now destruct (client bus path).
Qed.

End Failures.

(** An unfinished sum, with and without a caller. *)
Lemma RunJs_compile_failure_witness :
  trace (exec (RunJs engine "1+" (Some ":1.42") (Some "/client")) shell) =
    [BusCall (Some ":1.42") (Some "/client") (Some ":1.42") "Return"
             "SyntaxError: expected expression, got '}'"] /\
  trace (exec (RunJs engine "1+" None None) shell) =
    [LogError (Js.VErr (Js.mkError "SyntaxError" "expected expression, got '}'"))].
Proof.
  split.
  - exact (proj1 (proj2 (RunJs_compile_failure_is_reported engine "1+" (Some ":1.42")
                           (Some "/client") shell _ eq_refl))).
  - exact (proj1 (proj2 (RunJs_compile_failure_is_reported engine "1+" None None
                           shell _ eq_refl))).
Defined.

Lemma strip_prefix_app (p s : string) : strip_prefix p (p +:+ s) = Some s.
Proof.
  induction p as [|a p IH]; [reflexivity|].
  change (String a p +:+ s) with (String a (p +:+ s)). cbn [strip_prefix].
  now rewrite Ascii.eqb_refl.
Qed.

Lemma length_append (s q : string) :
  String.length (s +:+ q) = (String.length s + String.length q)%nat.
Proof.
  induction s as [|c s IH]; [reflexivity|].
  change (String c s +:+ q) with (String c (s +:+ q)). cbn [String.length].
  now rewrite IH.
Qed.

Lemma strip_suffix_app (q s : string) : strip_suffix q (s +:+ q) = Some s.
Proof.
  induction s as [|c s IH].
  - change (EmptyString +:+ q) with q. destruct q as [|a q]; [reflexivity|].
    cbn [strip_suffix]. now rewrite String.eqb_refl.
  - change (String c s +:+ q) with (String c (s +:+ q)). cbn [strip_suffix].
    assert (Hne : String.eqb (String c (s +:+ q)) q = false).
    { apply String.eqb_neq. intros Heq. apply (f_equal String.length) in Heq.
      cbn [String.length] in Heq. rewrite length_append in Heq. lia. }
    rewrite Hne, IH. reflexivity.
Qed.

Lemma function_body_source (js : string) :
  function_body (script_source js) =
    Some (if Js.includes ";" js then js else "return " +:+ js).
Proof.
  unfold function_body, script_source.
  set (body := if Js.includes ";" js then js else "return " +:+ js).
  change ("return (async function(print) {" +:+ Js.nl +:+
          "                " +:+ body +:+ Js.nl +:+ "            })")
    with (("return (async function(print) {" +:+ Js.nl +:+ "                ") +:+
          (body +:+ (Js.nl +:+ "            })"))).
  rewrite strip_prefix_app. apply strip_suffix_app.
Qed.

Lemma lex_no_semicolon (s : string) (cur : option Z) (ts : list token) :
  lex cur s = Some ts -> Js.includes ";" s = false.
Proof.
  revert cur ts. induction s as [|c s IH]; intros cur ts H; [reflexivity|].
  cbn [Js.includes].
  assert (Hc : String.prefix ";" (String c s) = false).
  { cbn [String.prefix].
    match goal with
    | |- context [Ascii.ascii_dec ?a c] => destruct (Ascii.ascii_dec a c) as [<-|]
    end; [|reflexivity].
    cbn in H. discriminate. }
  rewrite Hc. cbn [orb]. cbn [lex] in H.
  destruct (digit c).
  - destruct cur as [n|]; [destruct (n =? 0); [discriminate|]|]; eauto.
  - repeat match type of H with
           | (if ?b then _ else _) = _ => destruct b
           end; try discriminate;
      destruct (lex None s) eqn:E; try discriminate; eauto.
Qed.

Lemma arithmetic_source (js : string) (v : Js.value) :
  returned js = Some v ->
  arithmetic (script_source js) = Some (mkScript [] (Resolved v) []).
Proof.
  intros Hv. unfold arithmetic. rewrite function_body_source.
  assert (Hsep : Js.includes ";" js = false).
  { unfold returned in Hv. destruct (lex None js) as [ts|] eqn:E; [|discriminate].
    exact (lex_no_semicolon js None ts E). }
  rewrite Hsep, strip_prefix_app. now rewrite Hv.
Qed.

Section Sums.
Variable Function_ : string -> Js.Error + script.
Hypothesis Hjs : sums_as_JavaScript Function_.

(** X23: a sum of decimal literals that starts on the first line of the
    text is a text without a semicolon, and [RunJs] answers it with its
    value: one bus call carrying the digits of the sum, a [Return] call
    when there is a caller and a [Print] call with no destination
    otherwise, and nothing else. *)
Theorem RunJs_sum_is_returned
    (js : string) (v : Js.value) (bus path : option string) (st : App) :
  returned js = Some v ->
  let st' := exec (RunJs Function_ js bus path) st in
  Js.includes ";" js = false /\
  result (RunJs Function_ js bus path) st = Ret tt /\
  trace st' =
    trace st ++
      [BusCall bus path bus (if client bus path then "Return" else "Print")
               (Js.to_string v)].
Proof.
  intros Hv. cbn zeta.
  pose proof (Hjs _ _ (arithmetic_source js v Hv)) as Hc.
  split.
  - unfold returned in Hv. destruct (lex None js) as [ts|] eqn:E; [|discriminate].
    exact (lex_no_semicolon js None ts E).
  - unfold result, exec. rewrite (RunJs_compiled Function_ js bus path st _ Hc).
    cbn [fst snd trace log set_trace printed settled printed_later map app].
    split; [reflexivity|]. now destruct (client bus path).
Qed.

End Sums.

(** Three literals, and a sum that goes on after a line feed. *)
Lemma RunJs_sum_is_returned_witness :
  trace (exec (RunJs engine "10 + 20 + 12" (Some ":1.42") (Some "/client")) shell) =
    [BusCall (Some ":1.42") (Some "/client") (Some ":1.42") "Return" "42"] /\
  trace (exec (RunJs engine ("1" +:+ Js.nl +:+ "+ 1") None None) shell) =
    [BusCall None None None "Print" "2"].
Proof.
  split.
  - exact (proj2 (proj2 (RunJs_sum_is_returned engine engine_sums "10 + 20 + 12"
                           (Js.VNum "42") (Some ":1.42") (Some "/client") shell
                           eq_refl))).
  - exact (proj2 (proj2 (RunJs_sum_is_returned engine engine_sums
                           ("1" +:+ Js.nl +:+ "+ 1") (Js.VNum "2") None None shell
                           eq_refl))).
Defined.

Section Promise.
Variable Promise_ : string -> settlement.

(** X18: [RunPromise] returns, and keeps its two lanes apart: without
    a caller it makes no bus call, with a caller it never calls the global
    [print] and makes one bus call exactly when the promise settles; when
    the promise never settles the deprecation warning is all it prints. *)
Theorem RunPromise_lanes (js : string) (bus path : option string) (st : App) :
  let st' := exec (RunPromise Promise_ js bus path) st in
  result (RunPromise Promise_ js bus path) st = Ret tt /\
  (client bus path = false ->
   count is_bus_call (trace st') = count is_bus_call (trace st)) /\
  (client bus path = true ->
   count is_print (trace st') = count is_print (trace st) /\
   count is_bus_call (trace st') =
     (count is_bus_call (trace st) +
      match Promise_ js with Unsettled => 0 | _ => 1 end)%nat) /\
  (Promise_ js = Unsettled ->
   trace st' = trace st ++
     [ConsoleWarn ("--run-promise is DEPRECATED, " +:+
                   " use --run-js instead, which now supports await syntax")]).
Proof.
  cbn zeta. unfold exec, result, RunPromise, bind, act.
  destruct (Promise_ js) as [out|err|]; destruct (client bus path);
    cbn [fst snd trace log set_trace];
    repeat split; intros; try discriminate;
    rewrite ?count_app; cbn; try lia; try (now rewrite <- app_assoc).
  all: rewrite count_app; cbn; lia.
Qed.

End Promise.

Lemma RunPromise_lanes_witness :
  count is_bus_call
    (trace (exec (RunPromise promise_engine "resolve(1+1)" None None) shell)) =
    count is_bus_call (trace shell) /\
  count is_print
    (trace (exec (RunPromise promise_engine "resolve(1+1)" (Some ":1.42") (Some "/client"))
              shell)) = count is_print (trace shell).
Proof.
  split.
  - exact (proj1 (proj2 (RunPromise_lanes promise_engine "resolve(1+1)" None None shell))
             eq_refl).
  - exact (proj1 (proj1 (proj2 (proj2 (RunPromise_lanes promise_engine "resolve(1+1)"
                                         (Some ":1.42") (Some "/client") shell)))
                    eq_refl)).
Defined.

(** ** Files *)

Lemma split_nl_cons (s : string) : exists x xs, split_nl s = x :: xs.
Proof.
  induction s as [|c s (x & xs & IH)]; cbn; [eauto|].
  destruct (Ascii.eqb c (Ascii.ascii_of_nat 10)); [eauto|]. rewrite IH. eauto.
Qed.

Lemma join_split_nl (s : string) : join_nl (split_nl s) = s.
Proof.
  induction s as [|c s IH]; cbn [split_nl]; [reflexivity|].
  destruct (split_nl_cons s) as (x & xs & Hs). rewrite Hs in *.
  destruct (Ascii.eqb_spec c (Ascii.ascii_of_nat 10)) as [->|Hc].
  - change (join_nl (EmptyString :: x :: xs))
      with (EmptyString +:+ Js.nl +:+ join_nl (x :: xs)).
    now rewrite IH.
  - destruct xs as [|y ys].
    + cbn in *. now rewrite IH.
    + change (join_nl (String c x :: y :: ys))
        with (String c (x +:+ Js.nl +:+ join_nl (y :: ys))).
      change (join_nl (x :: y :: ys)) with (x +:+ Js.nl +:+ join_nl (y :: ys)) in IH.
      now rewrite IH.
Qed.

Lemma includes_nl_cons (c : Ascii.ascii) (s : string) :
  Js.includes Js.nl (String c s) = false ->
  Ascii.eqb c (Ascii.ascii_of_nat 10) = false /\ Js.includes Js.nl s = false.
Proof.
  cbn. intros H. apply orb_false_iff in H as [Hp Hi]. split; [|exact Hi].
  destruct (Ascii.eqb_spec c (Ascii.ascii_of_nat 10)) as [->|Hne]; [|reflexivity].
  cbn in Hp. now destruct s.
Qed.

Lemma split_nl_line (line rest : string) :
  Js.includes Js.nl line = false ->
  split_nl (line +:+ Js.nl +:+ rest) = line :: split_nl rest.
Proof.
  induction line as [|c line IH]; intros Hline.
  - reflexivity.
  - apply includes_nl_cons in Hline as [Hc Hline].
    change (split_nl (String c (line +:+ Js.nl +:+ rest)) =
            String c line :: split_nl rest).
    cbn [split_nl]. now rewrite Hc, (IH Hline).
Qed.

Lemma split_nl_single (line : string) :
  Js.includes Js.nl line = false -> split_nl line = [line].
Proof.
  induction line as [|c line IH]; intros Hline; [reflexivity|].
  apply includes_nl_cons in Hline as [Hc Hline]. cbn [split_nl].
  now rewrite Hc, (IH Hline).
Qed.

Lemma startsWith_shebang (x : string) : Js.startsWith "#!" ("#!" +:+ x) = true.
Proof. destruct x; reflexivity. Qed.


(** X19: [content.split('\n').slice(1).join('\n')] on a content that
    starts with [#!] drops the first line and its line feed and keeps the
    rest untouched, further line feeds included; a content that is only
    the shebang line becomes the empty text. *)
Theorem strip_shebang_drops_first_line (line rest : string) :
  Js.includes Js.nl line = false ->
  strip_shebang ("#!" +:+ line +:+ Js.nl +:+ rest) = rest /\
  strip_shebang ("#!" +:+ line) = EmptyString.
Proof.
  intros Hline.
  assert (Hline' : Js.includes Js.nl ("#!" +:+ line) = false) by exact Hline.
  unfold strip_shebang. split.
  - rewrite (startsWith_shebang (line +:+ Js.nl +:+ rest)).
    change ("#!" +:+ line +:+ Js.nl +:+ rest) with (("#!" +:+ line) +:+ Js.nl +:+ rest).
    rewrite (split_nl_line _ rest Hline'). cbn [tail]. apply join_split_nl.
  - rewrite (startsWith_shebang line). now rewrite (split_nl_single _ Hline').
Qed.

Lemma strip_shebang_witness :
  strip_shebang ("#!/usr/bin/env -S ags --run-file" +:+ Js.nl +:+ "1+1") = "1+1".
Proof.
  exact (proj1 (strip_shebang_drops_first_line "/usr/bin/env -S ags --run-file" "1+1"
                  eq_refl)).
Defined.

Section Files.
Variable readFileAsync : string -> Js.value + string.
Variable Function_ : string -> Js.Error + script.



(** X21: when the file cannot be read, [RunFile] only calls
    [logError] with the reason: no bus call is made, so a caller gets no
    reply. *)
Theorem RunFile_read_failure_is_only_logged
    (file : string) (bus path : option string) (st : App) (err : Js.value) :
  readFileAsync file = inl err ->
  RunFile readFileAsync Function_ file bus path st = (Ret tt, log [LogError err] st) /\
  count is_bus_call (trace (exec (RunFile readFileAsync Function_ file bus path) st)) =
    count is_bus_call (trace st).
Proof.
  intros Hread. unfold exec, RunFile. rewrite Hread. split; [reflexivity|].
  cbn. rewrite count_app. cbn. lia.
Qed.

End Files.


Lemma RunFile_read_failure_witness :
  RunFile sample_files engine "/nope" (Some ":1.42") (Some "/client") shell =
    (Ret tt,
     log [LogError (Js.VErr (Js.mkError "GLib.FileError" "No such file or directory"))]
         shell).
Proof.
  exact (proj1 (RunFile_read_failure_is_only_logged sample_files engine "/nope"
                  (Some ":1.42") (Some "/client") shell _ eq_refl)).
Defined.
